(** * tools/e133/SlpThread.cpp: the SLP resolver thread of OLA

    A shallow embedding of [SlpThread]: the two mutex-guarded callback
    queues, the worker-side discovery / registration requests with their
    timers, and [Init] / [Cleanup].

    Conventions.
    - [unsigned short] values are [Z] in [0, 65535]; every conversion to
      [unsigned short] is written [to_ushort].
    - The SLP library (slp.h), the pipe behind a [LoopbackSocket] and the
      content of uninitialised storage are outside the program: they are
      answers of an [Environment], a function of everything the program
      has done so far.
    - [trace] records what the program does to the outside, newest event
      first. *)

From stdpp Require Import gmap strings list fin_maps sorting.
From Stdlib Require Import ZArith Lia.

Local Open Scope Z_scope.

(** ** Machine integers *)

Definition to_ushort (z : Z) : Z := z mod 65536.

(** ** slp.h *)

Abbreviation SLPError := Z (only parsing).
Definition SLP_LAST_CALL : SLPError := 1.
Definition SLP_OK : SLPError := 0.

(** ** Constants of the class *)

Definition SERVICE_NAME : string := "service:e133.esta".
Definition MIN_LIFETIME : Z := 5.

(** ola::network::timeout_id and its sentinel. *)
Abbreviation timeout_id := nat (only parsing).
Definition INVALID_TIMEOUT : timeout_id := 0%nat.

(** The caller's callback objects are opaque; they are told apart by a
    number. *)
Abbreviation slp_registration_callback := nat (only parsing).
Abbreviation slp_discovery_callback := nat (only parsing).

(** ** Callbacks bound by [NewSingleCallback] *)

(** Timers of the worker's select server. *)
Inductive timer_callback :=
| DiscoveryTriggered_cb
| RegistrationTriggered_cb (url : string).

(** Entries of [m_incoming_queue]. *)
Inductive request :=
| DiscoveryRequest_cb
| RegisterRequest_cb (callback : slp_registration_callback) (url : string)
    (lifetime : Z)
| DeregisterRequest_cb (callback : slp_registration_callback) (url : string).

(** Entries of [m_outgoing_queue]. *)
Inductive completion :=
| DiscoveryActionComplete_cb (ok : bool) (urls : list string)
| SimpleActionComplete_cb (callback : slp_registration_callback) (ok : bool).

Inductive socket_name := incoming_socket | outgoing_socket.

Global Instance timer_callback_eq_dec : EqDecision timer_callback.
Proof. solve_decision. Defined.
Global Instance request_eq_dec : EqDecision request.
Proof. solve_decision. Defined.
Global Instance completion_eq_dec : EqDecision completion.
Proof. solve_decision. Defined.
Global Instance socket_name_eq_dec : EqDecision socket_name.
Proof. solve_decision. Defined.

(** ** What the program does to the outside *)

Inductive event :=
| EvSocketInit (s : socket_name)
| EvSocketClose (s : socket_name)
| EvSocketSend (s : socket_name)
| EvSLPOpen
| EvSLPClose
| EvSLPFindSrvs (srvtype : string)
| EvSLPReg (srvurl : string) (lifetime : Z)
| EvSLPDereg (srvurl : string)
| EvSLPGetRefreshInterval
| EvRegisterSingleTimeout (id : timeout_id) (ms : Z) (cb : timer_callback)
| EvRemoveTimeout (id : timeout_id)
| EvTimeoutFired (id : timeout_id)
| EvIncomingPush (r : request)
| EvIncomingRun (r : request)
| EvOutgoingPush (c : completion)
| EvOutgoingRun (c : completion)
| EvDiscoveryCallback (ok : bool) (urls : list string)
| EvRegistrationCallback (callback : slp_registration_callback) (ok : bool).

Global Instance event_eq_dec : EqDecision event.
Proof. solve_decision. Defined.

(** One invocation of the [SLPSrvURLCallback] by the library. *)
Record srv_report := {
  rep_srvurl : string;
  rep_lifetime : Z;
  rep_errcode : SLPError;
}.

(** The outside world.  Every answer may depend on the whole history,
    which includes the call being answered and its arguments. *)
Record Environment := {
  (** does pipe(2) succeed *)
  env_pipe : list event -> bool;
  env_SLPOpen : list event -> SLPError;
  (** return code, and the callback invocations made during the call *)
  env_SLPFindSrvs : list event -> SLPError * list srv_report;
  (** return code, and the error codes given to the [SLPRegReport] *)
  env_SLPReg : list event -> SLPError * list SLPError;
  env_SLPDereg : list event -> SLPError * list SLPError;
  env_SLPGetRefreshInterval : list event -> Z;
  (** the content of a local [SLPError] before anything is stored in it *)
  env_uninitialised : list event -> SLPError;
}.

(** ** Collaborators *)

(** Modelled from the spec: ola::network::LoopbackSocket (the wake
    channel): a descriptor that is open or [CLOSED_SOCKET], and the bytes
    written to it and not read yet. *)
Record LoopbackSocket := {
  sock_open : bool;
  sock_pending : nat;
}.

(** Modelled from the spec: ola::network::SelectServer (the event loop
    adapter): registered sockets and pending one-shot timers, each with
    its delay in milliseconds and its callback; handles are never
    reused and never [INVALID_TIMEOUT]. *)
Record SelectServer := {
  ss_sockets : list socket_name;
  ss_timeouts : gmap nat (Z * timer_callback);
  ss_next_id : timeout_id;
}.

Definition SelectServer_new : SelectServer :=
  {| ss_sockets := []; ss_timeouts := ∅; ss_next_id := 1%nat |}.

Definition ss_AddSocket (s : socket_name) (ss : SelectServer) : SelectServer :=
  {| ss_sockets := s :: ss_sockets ss;
     ss_timeouts := ss_timeouts ss;
     ss_next_id := ss_next_id ss |}.

Definition ss_RemoveSocket (s : socket_name) (ss : SelectServer) : SelectServer :=
  {| ss_sockets := filter (fun s' => s' ≠ s) (ss_sockets ss);
     ss_timeouts := ss_timeouts ss;
     ss_next_id := ss_next_id ss |}.

Definition ss_RegisterSingleTimeout (ms : Z) (cb : timer_callback)
    (ss : SelectServer) : timeout_id * SelectServer :=
  (ss_next_id ss,
   {| ss_sockets := ss_sockets ss;
      ss_timeouts := <[ss_next_id ss := (ms, cb)]> (ss_timeouts ss);
      ss_next_id := S (ss_next_id ss) |}).

(** Cancelling a handle that is not pending does nothing. *)
Definition ss_RemoveTimeout (id : timeout_id) (ss : SelectServer) : SelectServer :=
  {| ss_sockets := ss_sockets ss;
     ss_timeouts := delete id (ss_timeouts ss);
     ss_next_id := ss_next_id ss |}.

(** ** The object *)

Record url_registration_state := {
  lifetime : Z;
  timeout : timeout_id;
}.

Record SlpThread := {
  m_main_ss : SelectServer;
  m_ss : SelectServer;
  m_init_ok : bool;
  m_refresh_time : Z;
  m_discovery_callback : option slp_discovery_callback;
  m_discovery_timeout : timeout_id;
  m_url_map : gmap string url_registration_state;
  m_incoming_socket : LoopbackSocket;
  m_outgoing_socket : LoopbackSocket;
  m_incoming_queue : list request;
  m_outgoing_queue : list completion;
  (** is the handle returned by SLPOpen still open *)
  m_slp_handle : bool;
  trace : list event;
}.

Definition set_m_main_ss (v : SelectServer) (t : SlpThread) : SlpThread :=
  {| m_main_ss := v; m_ss := m_ss t; m_init_ok := m_init_ok t;
     m_refresh_time := m_refresh_time t;
     m_discovery_callback := m_discovery_callback t;
     m_discovery_timeout := m_discovery_timeout t; m_url_map := m_url_map t;
     m_incoming_socket := m_incoming_socket t;
     m_outgoing_socket := m_outgoing_socket t;
     m_incoming_queue := m_incoming_queue t;
     m_outgoing_queue := m_outgoing_queue t;
     m_slp_handle := m_slp_handle t; trace := trace t |}.

Definition set_m_ss (v : SelectServer) (t : SlpThread) : SlpThread :=
  {| m_main_ss := m_main_ss t; m_ss := v; m_init_ok := m_init_ok t;
     m_refresh_time := m_refresh_time t;
     m_discovery_callback := m_discovery_callback t;
     m_discovery_timeout := m_discovery_timeout t; m_url_map := m_url_map t;
     m_incoming_socket := m_incoming_socket t;
     m_outgoing_socket := m_outgoing_socket t;
     m_incoming_queue := m_incoming_queue t;
     m_outgoing_queue := m_outgoing_queue t;
     m_slp_handle := m_slp_handle t; trace := trace t |}.

Definition set_m_init_ok (v : bool) (t : SlpThread) : SlpThread :=
  {| m_main_ss := m_main_ss t; m_ss := m_ss t; m_init_ok := v;
     m_refresh_time := m_refresh_time t;
     m_discovery_callback := m_discovery_callback t;
     m_discovery_timeout := m_discovery_timeout t; m_url_map := m_url_map t;
     m_incoming_socket := m_incoming_socket t;
     m_outgoing_socket := m_outgoing_socket t;
     m_incoming_queue := m_incoming_queue t;
     m_outgoing_queue := m_outgoing_queue t;
     m_slp_handle := m_slp_handle t; trace := trace t |}.

Definition set_m_discovery_timeout (v : timeout_id) (t : SlpThread) : SlpThread :=
  {| m_main_ss := m_main_ss t; m_ss := m_ss t; m_init_ok := m_init_ok t;
     m_refresh_time := m_refresh_time t;
     m_discovery_callback := m_discovery_callback t;
     m_discovery_timeout := v; m_url_map := m_url_map t;
     m_incoming_socket := m_incoming_socket t;
     m_outgoing_socket := m_outgoing_socket t;
     m_incoming_queue := m_incoming_queue t;
     m_outgoing_queue := m_outgoing_queue t;
     m_slp_handle := m_slp_handle t; trace := trace t |}.

Definition set_m_url_map (v : gmap string url_registration_state)
    (t : SlpThread) : SlpThread :=
  {| m_main_ss := m_main_ss t; m_ss := m_ss t; m_init_ok := m_init_ok t;
     m_refresh_time := m_refresh_time t;
     m_discovery_callback := m_discovery_callback t;
     m_discovery_timeout := m_discovery_timeout t; m_url_map := v;
     m_incoming_socket := m_incoming_socket t;
     m_outgoing_socket := m_outgoing_socket t;
     m_incoming_queue := m_incoming_queue t;
     m_outgoing_queue := m_outgoing_queue t;
     m_slp_handle := m_slp_handle t; trace := trace t |}.

Definition set_m_incoming_socket (v : LoopbackSocket) (t : SlpThread) : SlpThread :=
  {| m_main_ss := m_main_ss t; m_ss := m_ss t; m_init_ok := m_init_ok t;
     m_refresh_time := m_refresh_time t;
     m_discovery_callback := m_discovery_callback t;
     m_discovery_timeout := m_discovery_timeout t; m_url_map := m_url_map t;
     m_incoming_socket := v;
     m_outgoing_socket := m_outgoing_socket t;
     m_incoming_queue := m_incoming_queue t;
     m_outgoing_queue := m_outgoing_queue t;
     m_slp_handle := m_slp_handle t; trace := trace t |}.

Definition set_m_outgoing_socket (v : LoopbackSocket) (t : SlpThread) : SlpThread :=
  {| m_main_ss := m_main_ss t; m_ss := m_ss t; m_init_ok := m_init_ok t;
     m_refresh_time := m_refresh_time t;
     m_discovery_callback := m_discovery_callback t;
     m_discovery_timeout := m_discovery_timeout t; m_url_map := m_url_map t;
     m_incoming_socket := m_incoming_socket t;
     m_outgoing_socket := v;
     m_incoming_queue := m_incoming_queue t;
     m_outgoing_queue := m_outgoing_queue t;
     m_slp_handle := m_slp_handle t; trace := trace t |}.

Definition set_m_incoming_queue (v : list request) (t : SlpThread) : SlpThread :=
  {| m_main_ss := m_main_ss t; m_ss := m_ss t; m_init_ok := m_init_ok t;
     m_refresh_time := m_refresh_time t;
     m_discovery_callback := m_discovery_callback t;
     m_discovery_timeout := m_discovery_timeout t; m_url_map := m_url_map t;
     m_incoming_socket := m_incoming_socket t;
     m_outgoing_socket := m_outgoing_socket t;
     m_incoming_queue := v;
     m_outgoing_queue := m_outgoing_queue t;
     m_slp_handle := m_slp_handle t; trace := trace t |}.

Definition set_m_outgoing_queue (v : list completion) (t : SlpThread) : SlpThread :=
  {| m_main_ss := m_main_ss t; m_ss := m_ss t; m_init_ok := m_init_ok t;
     m_refresh_time := m_refresh_time t;
     m_discovery_callback := m_discovery_callback t;
     m_discovery_timeout := m_discovery_timeout t; m_url_map := m_url_map t;
     m_incoming_socket := m_incoming_socket t;
     m_outgoing_socket := m_outgoing_socket t;
     m_incoming_queue := m_incoming_queue t;
     m_outgoing_queue := v;
     m_slp_handle := m_slp_handle t; trace := trace t |}.

Definition set_m_slp_handle (v : bool) (t : SlpThread) : SlpThread :=
  {| m_main_ss := m_main_ss t; m_ss := m_ss t; m_init_ok := m_init_ok t;
     m_refresh_time := m_refresh_time t;
     m_discovery_callback := m_discovery_callback t;
     m_discovery_timeout := m_discovery_timeout t; m_url_map := m_url_map t;
     m_incoming_socket := m_incoming_socket t;
     m_outgoing_socket := m_outgoing_socket t;
     m_incoming_queue := m_incoming_queue t;
     m_outgoing_queue := m_outgoing_queue t;
     m_slp_handle := v; trace := trace t |}.

Definition set_trace (v : list event) (t : SlpThread) : SlpThread :=
  {| m_main_ss := m_main_ss t; m_ss := m_ss t; m_init_ok := m_init_ok t;
     m_refresh_time := m_refresh_time t;
     m_discovery_callback := m_discovery_callback t;
     m_discovery_timeout := m_discovery_timeout t; m_url_map := m_url_map t;
     m_incoming_socket := m_incoming_socket t;
     m_outgoing_socket := m_outgoing_socket t;
     m_incoming_queue := m_incoming_queue t;
     m_outgoing_queue := m_outgoing_queue t;
     m_slp_handle := m_slp_handle t; trace := v |}.

(** ** Member functions run on the object: a state monad *)

Definition M (A : Type) : Type := SlpThread -> A * SlpThread.

Definition ret {A} (a : A) : M A := fun t => (a, t).
Definition bind {A B} (c : M A) (f : A -> M B) : M B :=
  fun t => let (a, t') := c t in f a t'.

Declare Scope slp_scope.
Delimit Scope slp_scope with slp.
Notation "x ← y ; z" := (bind y (fun x => z))
  (at level 20, y at level 100, z at level 200, only parsing) : slp_scope.
Notation "' x ← y ; z" := (bind y (fun x => z))
  (at level 20, x pattern, y at level 100, z at level 200, only parsing)
  : slp_scope.
Notation "x ;; z" := (bind x (fun _ => z))
  (at level 100, z at level 200, only parsing, right associativity)
  : slp_scope.
Local Open Scope slp_scope.

Definition gets {A} (f : SlpThread -> A) : M A := fun t => (f t, t).
Definition modify (f : SlpThread -> SlpThread) : M unit := fun t => (tt, f t).
Definition emit (e : event) : M unit :=
  modify (fun t => set_trace (e :: trace t) t).
Definition when (b : bool) (c : M unit) : M unit :=
  if b then c else ret tt.
Definition exec {A} (c : M A) (t : SlpThread) : SlpThread := (c t).2.
Definition eval {A} (c : M A) (t : SlpThread) : A := (c t).1.

Section SlpThread.

(** The outside world the object runs in. *)
Variable env : Environment.

(** [SLPD_AGING_TIME_S] is declared in SlpThread.h, which is not part of
    the sources at hand; its value is a parameter. *)
Variable SLPD_AGING_TIME_S : Z.

(** *** The constructor *)

Definition LoopbackSocket_new : LoopbackSocket :=
  {| sock_open := false; sock_pending := 0 |}.

Definition SlpThread_new (ss : SelectServer)
    (discovery_callback : option slp_discovery_callback)
    (refresh_time : Z) : SlpThread :=
  {| m_main_ss := ss;
     m_ss := SelectServer_new;
     m_init_ok := false;
     m_refresh_time := refresh_time;
     m_discovery_callback := discovery_callback;
     m_discovery_timeout := INVALID_TIMEOUT;
     m_url_map := ∅;
     m_incoming_socket := LoopbackSocket_new;
     m_outgoing_socket := LoopbackSocket_new;
     m_incoming_queue := [];
     m_outgoing_queue := [];
     m_slp_handle := false;
     trace := [] |}.

(** *** The wake channels *)

Definition socket_of (s : socket_name) (t : SlpThread) : LoopbackSocket :=
  match s with
  | incoming_socket => m_incoming_socket t
  | outgoing_socket => m_outgoing_socket t
  end.

Definition set_socket (s : socket_name) (v : LoopbackSocket)
    : SlpThread -> SlpThread :=
  match s with
  | incoming_socket => set_m_incoming_socket v
  | outgoing_socket => set_m_outgoing_socket v
  end.

(** Modelled from the spec: LoopbackSocket::Init acquires the channel; it
    fails on a socket that is open already and when no pipe can be had. *)
Definition LoopbackSocket_Init (s : socket_name) : M bool :=
  sock ← gets (socket_of s);
  if sock_open sock then ret false
  else
    emit (EvSocketInit s);;
    ok ← gets (fun t => env_pipe env (trace t));
    if ok then
      modify (set_socket s {| sock_open := true; sock_pending := 0 |});;
      ret true
    else ret false.

(** Modelled from the spec: LoopbackSocket::Close releases the channel
    and is harmless on a closed one. *)
Definition LoopbackSocket_Close (s : socket_name) : M unit :=
  sock ← gets (socket_of s);
  when (sock_open sock)
    (emit (EvSocketClose s);;
     modify (set_socket s {| sock_open := false; sock_pending := 0 |})).

(** Modelled from the spec: LoopbackSocket::Send, a best-effort write. *)
Definition LoopbackSocket_Send (s : socket_name) (bytes : nat) : M unit :=
  sock ← gets (socket_of s);
  when (sock_open sock)
    (emit (EvSocketSend s);;
     modify (set_socket s {| sock_open := true;
                             sock_pending := sock_pending sock + bytes |})).

Definition WakeUpSocket (s : socket_name) : M unit :=
  LoopbackSocket_Send s 1.

(** [while (socket->DataRemaining()) socket->Receive(one byte)]: one
    pass of the loop per pending byte. *)
Fixpoint EmptySocket_loop (pending : nat) (s : socket_name) : M unit :=
  match pending with
  | O => ret tt
  | S n =>
      modify (fun t => set_socket s {| sock_open := sock_open (socket_of s t);
                                       sock_pending := n |} t);;
      EmptySocket_loop n s
  end.

Definition EmptySocket (s : socket_name) : M unit :=
  sock ← gets (socket_of s);
  EmptySocket_loop (sock_pending sock) s.

(** *** The two queues *)

Definition AddToIncomingQueue (callback : request) : M unit :=
  (* between pthread_mutex_lock and pthread_mutex_unlock *)
  emit (EvIncomingPush callback);;
  modify (fun t => set_m_incoming_queue (m_incoming_queue t ++ [callback]) t).

Definition AddToOutgoingQueue (callback : completion) : M unit :=
  emit (EvOutgoingPush callback);;
  modify (fun t => set_m_outgoing_queue (m_outgoing_queue t ++ [callback]) t);;
  WakeUpSocket outgoing_socket.

(** *** The worker's select server *)

Definition RegisterSingleTimeout (ms : Z) (cb : timer_callback) : M timeout_id :=
  ss ← gets m_ss;
  let (id, ss') := ss_RegisterSingleTimeout ms cb ss in
  modify (set_m_ss ss');;
  emit (EvRegisterSingleTimeout id ms cb);;
  ret id.

Definition RemoveTimeout (id : timeout_id) : M unit :=
  modify (fun t => set_m_ss (ss_RemoveTimeout id (m_ss t)) t);;
  emit (EvRemoveTimeout id).

(** *** The SLP library *)

Definition uninitialised : M SLPError :=
  gets (fun t => env_uninitialised env (trace t)).

Definition SLPOpen : M SLPError :=
  emit EvSLPOpen;;
  err ← gets (fun t => env_SLPOpen env (trace t));
  when (err =? SLP_OK) (modify (set_m_slp_handle true));;
  ret err.

Definition SLPClose : M unit :=
  emit EvSLPClose;;
  modify (set_m_slp_handle false).

Definition SLPGetRefreshInterval : M Z :=
  emit EvSLPGetRefreshInterval;;
  gets (fun t => to_ushort (env_SLPGetRefreshInterval env (trace t))).

Definition SLPFindSrvs (srvtype : string) : M (SLPError * list srv_report) :=
  emit (EvSLPFindSrvs srvtype);;
  gets (fun t => env_SLPFindSrvs env (trace t)).

Definition SLPReg (srvurl : string) (lifetime0 : Z)
    : M (SLPError * list SLPError) :=
  emit (EvSLPReg srvurl lifetime0);;
  gets (fun t => env_SLPReg env (trace t)).

Definition SLPDereg (srvurl : string) : M (SLPError * list SLPError) :=
  emit (EvSLPDereg srvurl);;
  gets (fun t => env_SLPDereg env (trace t)).

(** *** Callbacks handed to the SLP library *)

(** [*error = errcode] *)
Definition RegisterCallback (errcode : SLPError) (cookie : SLPError) : SLPError :=
  errcode.

Record slp_cookie := {
  error : SLPError;
  urls : list (string * Z);
}.

Definition ServiceCallback (srvurl : string) (lifetime0 : Z)
    (errcode : SLPError) (cookie : slp_cookie) : slp_cookie :=
  if errcode =? SLP_OK then
    {| error := SLP_OK; urls := urls cookie ++ [(srvurl, lifetime0)] |}
  else if errcode =? SLP_LAST_CALL then
    {| error := SLP_OK; urls := urls cookie |}
  else
    {| error := errcode; urls := urls cookie |}.

(** The library calls the callback once per report; [ServiceCallback]
    always answers SLP_TRUE, so it is never cut short.  The lifetime
    arrives as an [unsigned short]. *)
Definition deliver_reports (reports : list srv_report) (cookie : slp_cookie)
    : slp_cookie :=
  fold_left
    (fun c r => ServiceCallback (rep_srvurl r) (to_ushort (rep_lifetime r))
                                (rep_errcode r) c)
    reports cookie.

Definition deliver_errors (errcodes : list SLPError) (cookie : SLPError)
    : SLPError :=
  fold_left (fun c errcode => RegisterCallback errcode c) errcodes cookie.

(** *** Init and Cleanup *)

Definition Init : M bool :=
  init_ok ← gets m_init_ok;
  if init_ok then ret true
  else
    r ← LoopbackSocket_Init incoming_socket;
    if negb r then ret false
    else
      r ← LoopbackSocket_Init outgoing_socket;
      if negb r then
        LoopbackSocket_Close incoming_socket;;
        ret false
      else
        err ← SLPOpen;
        if negb (err =? SLP_OK) then
          LoopbackSocket_Close incoming_socket;;
          LoopbackSocket_Close outgoing_socket;;
          ret false
        else
          modify (fun t => set_m_ss (ss_AddSocket incoming_socket (m_ss t)) t);;
          modify (fun t =>
            set_m_main_ss (ss_AddSocket outgoing_socket (m_main_ss t)) t);;
          modify (set_m_init_ok true);;
          ret true.

Definition Cleanup : M unit :=
  sock ← gets m_incoming_socket;
  when (sock_open sock)
    (modify (fun t => set_m_ss (ss_RemoveSocket incoming_socket (m_ss t)) t);;
     LoopbackSocket_Close incoming_socket);;
  sock ← gets m_outgoing_socket;
  when (sock_open sock)
    (modify (fun t =>
       set_m_main_ss (ss_RemoveSocket outgoing_socket (m_main_ss t)) t);;
     LoopbackSocket_Close outgoing_socket);;
  init_ok ← gets m_init_ok;
  when init_ok SLPClose;;
  modify (set_m_init_ok false).

(** *** The public requests, run on the caller's thread *)

Definition Discover : M bool :=
  cb ← gets m_discovery_callback;
  match cb with
  | None => ret false
  | Some _ =>
      AddToIncomingQueue DiscoveryRequest_cb;;
      WakeUpSocket incoming_socket;;
      ret true
  end.

(** [lifetime0] is the [unsigned short] argument. *)
Definition Register (on_complete : slp_registration_callback) (url : string)
    (lifetime0 : Z) : M unit :=
  let lifetime1 :=
    if lifetime0 <=? SLPD_AGING_TIME_S * 2
    then to_ushort (2 * SLPD_AGING_TIME_S)
    else lifetime0 in
  AddToIncomingQueue (RegisterRequest_cb on_complete url lifetime1);;
  WakeUpSocket incoming_socket.

Definition DeRegister (on_complete : slp_registration_callback)
    (url : string) : M unit :=
  AddToIncomingQueue (DeregisterRequest_cb on_complete url);;
  WakeUpSocket incoming_socket.

(** *** The requests, run on the worker's thread *)

Definition DiscoveryRequest : M unit :=
  discovery_timeout ← gets m_discovery_timeout;
  when (negb (discovery_timeout =? INVALID_TIMEOUT)%nat)
    (RemoveTimeout discovery_timeout);;
  (* slp_cookie cookie: the vector starts empty, the error is not set *)
  error0 ← uninitialised;
  '(err, reports) ← SLPFindSrvs SERVICE_NAME;
  let cookie := deliver_reports reports {| error := error0; urls := [] |} in
  let ok := true in
  let ok := if negb (err =? SLP_OK) then false else ok in
  let ok := if negb (error cookie =? SLP_OK) then false else ok in
  refresh_time ← gets m_refresh_time;
  (* unsigned short next_discovery_duration = m_refresh_time *)
  let next_discovery_duration := to_ushort refresh_time in
  let next_discovery_duration :=
    if ok then
      fold_left (fun next p => Z.min p.2 next) (urls cookie)
                next_discovery_duration
    else next_discovery_duration in
  let found := map fst (urls cookie) in
  id ← RegisterSingleTimeout (next_discovery_duration * 1000)
                             DiscoveryTriggered_cb;
  modify (set_m_discovery_timeout id);;
  AddToOutgoingQueue (DiscoveryActionComplete_cb ok found).

(** [timeout] points into the entry of [url] at both call sites, so the
    store through it is a store into that entry. *)
Definition PerformRegistration (url : string) (lifetime0 : Z) : M bool :=
  let str := String.append SERVICE_NAME (String.append "://" url) in
  callbackerr0 ← uninitialised;
  '(err, errcodes) ← SLPReg str lifetime0;
  let callbackerr := deliver_errors errcodes callbackerr0 in
  let ok := true in
  let ok := if negb (err =? SLP_OK) then false else ok in
  let ok := if negb (callbackerr =? SLP_OK) then false else ok in
  (* schedule timeout *)
  let lifetime1 := to_ushort (lifetime0 - SLPD_AGING_TIME_S) in
  id ← RegisterSingleTimeout ((lifetime1 - 1) * 1000)
                             (RegistrationTriggered_cb url);
  modify (fun t =>
    set_m_url_map
      (alter (fun st => {| lifetime := lifetime st; timeout := id |}) url
             (m_url_map t)) t);;
  ret ok.

Definition RegisterRequest (callback : slp_registration_callback)
    (url : string) (lifetime0 : Z) : M unit :=
  let lifetime1 := Z.max lifetime0 MIN_LIFETIME in
  min_lifetime ← SLPGetRefreshInterval;
  let lifetime2 :=
    if negb (min_lifetime =? 0) && (lifetime1 <? min_lifetime)
    then min_lifetime else lifetime1 in
  let register :=
    ok ← PerformRegistration url lifetime2;
    (* mark as done *)
    AddToOutgoingQueue (SimpleActionComplete_cb callback ok) in
  url_map ← gets m_url_map;
  match url_map !! url with
  | Some st =>
      if lifetime st =? lifetime2 then
        AddToOutgoingQueue (SimpleActionComplete_cb callback true)
      else
        modify (set_m_url_map
          (<[url := {| lifetime := lifetime2; timeout := timeout st |}]>
             url_map));;
        when (negb (timeout st =? INVALID_TIMEOUT)%nat)
          (RemoveTimeout (timeout st));;
        register
  | None =>
      modify (set_m_url_map
        (<[url := {| lifetime := lifetime2; timeout := INVALID_TIMEOUT |}]>
           url_map));;
      register
  end.

Definition DeregisterRequest (callback : slp_registration_callback)
    (url : string) : M unit :=
  url_map ← gets m_url_map;
  match url_map !! url with
  | Some st =>
      when (negb (timeout st =? INVALID_TIMEOUT)%nat)
        (RemoveTimeout (timeout st));;
      modify (set_m_url_map (delete url url_map))
  | None => ret tt
  end;;
  let str := String.append SERVICE_NAME (String.append "://" url) in
  callbackerr0 ← uninitialised;
  '(err, errcodes) ← SLPDereg str;
  let callbackerr := deliver_errors errcodes callbackerr0 in
  let ok := true in
  let ok := if negb (err =? SLP_OK) then false else ok in
  let ok := if negb (callbackerr =? SLP_OK) then false else ok in
  AddToOutgoingQueue (SimpleActionComplete_cb callback ok).

(** *** The completions, run on the main thread *)

(** The caller's callback is outside the program: running it is an
    event.  [m_discovery_callback] is not checked here; a completion of
    this kind is only queued after [Discover] has seen it non-NULL. *)
Definition DiscoveryActionComplete (ok : bool) (found : list string) : M unit :=
  cb ← gets m_discovery_callback;
  match cb with
  | Some _ => emit (EvDiscoveryCallback ok found)
  | None => ret tt
  end.

Definition SimpleActionComplete (callback : slp_registration_callback)
    (ok : bool) : M unit :=
  emit (EvRegistrationCallback callback ok).

(** *** The timers *)

Definition DiscoveryTriggered : M unit :=
  modify (set_m_discovery_timeout INVALID_TIMEOUT);;
  DiscoveryRequest.

Definition RegistrationTriggered (url : string) : M unit :=
  url_map ← gets m_url_map;
  match url_map !! url with
  | Some st =>
      PerformRegistration url (lifetime st);;
      ret tt
  | None => ret tt
  end.

(** *** Draining the queues *)

Definition run_request (callback : request) : M unit :=
  match callback with
  | DiscoveryRequest_cb => DiscoveryRequest
  | RegisterRequest_cb on_complete url lifetime0 =>
      RegisterRequest on_complete url lifetime0
  | DeregisterRequest_cb on_complete url => DeregisterRequest on_complete url
  end.

Definition run_completion (callback : completion) : M unit :=
  match callback with
  | DiscoveryActionComplete_cb ok found => DiscoveryActionComplete ok found
  | SimpleActionComplete_cb on_complete ok => SimpleActionComplete on_complete ok
  end.

Definition run_timer (callback : timer_callback) : M unit :=
  match callback with
  | DiscoveryTriggered_cb => DiscoveryTriggered
  | RegistrationTriggered_cb url => RegistrationTriggered url
  end.

(** One pass through the body of [while (true)] in [NewRequest]: [false]
    when the queue was seen empty and the function returned. *)
Definition NewRequest_iteration : M bool :=
  queue ← gets m_incoming_queue;
  match queue with
  | [] => ret false
  | callback :: rest =>
      modify (set_m_incoming_queue rest);;
      emit (EvIncomingRun callback);;
      run_request callback;;
      ret true
  end.

Definition RequestComplete_iteration : M bool :=
  queue ← gets m_outgoing_queue;
  match queue with
  | [] => ret false
  | callback :: rest =>
      modify (set_m_outgoing_queue rest);;
      emit (EvOutgoingRun callback);;
      run_completion callback;;
      ret true
  end.




(** A single-shot timer of the worker's select server comes due: it
    leaves the select server and its callback runs. *)
Definition timeout_fires (id : timeout_id) : M unit :=
  ss ← gets m_ss;
  match ss_timeouts ss !! id with
  | Some (_, callback) =>
      modify (set_m_ss (ss_RemoveTimeout id ss));;
      emit (EvTimeoutFired id);;
      run_timer callback
  | None => ret tt
  end.

(** *** What can happen to the object *)

Inductive op :=
| CallInit
| CallCleanup
| CallDiscover
| CallRegister (on_complete : slp_registration_callback) (url : string)
    (lifetime0 : Z)
| CallDeRegister (on_complete : slp_registration_callback) (url : string)
| WorkerWakes
| WorkerIteration
| MainWakes
| MainIteration
| TimeoutFires (id : timeout_id).

(** [WorkerWakes] and [WorkerIteration] are the two parts of
    [NewRequest], so that pushes from the other thread can fall between
    two passes of its loop; [MainWakes] and [MainIteration] are those of
    [RequestComplete].  The argument of [Register] is converted to
    [unsigned short] at the call. *)
Definition step (o : op) : M unit :=
  match o with
  | CallInit => Init;; ret tt
  | CallCleanup => Cleanup
  | CallDiscover => Discover;; ret tt
  | CallRegister on_complete url lifetime0 =>
      Register on_complete url (to_ushort lifetime0)
  | CallDeRegister on_complete url => DeRegister on_complete url
  | WorkerWakes => EmptySocket incoming_socket
  | WorkerIteration => NewRequest_iteration;; ret tt
  | MainWakes => EmptySocket outgoing_socket
  | MainIteration => RequestComplete_iteration;; ret tt
  | TimeoutFires id => timeout_fires id
  end.

Definition run (ops : list op) (t : SlpThread) : SlpThread :=
  fold_left (fun t o => exec (step o) t) ops t.

End SlpThread.

(** * Vocabulary of the statements *)

(** [EmptySocket] leaves the socket open or closed as it was, with
    nothing pending. *)
Definition emptied (s : socket_name) (t : SlpThread) : SlpThread :=
  match sock_pending (socket_of s t) with
  | O => t
  | S _ => set_socket s {| sock_open := sock_open (socket_of s t);
                           sock_pending := 0 |} t
  end.

(** The contents of both queues as the trace has them: a push appends,
    and a run is only legal for the callback at the front, which it
    removes. *)
Definition replay_event (e : event) (q : list request * list completion)
    : option (list request * list completion) :=
  match e with
  | EvIncomingPush r => Some (q.1 ++ [r], q.2)
  | EvIncomingRun r =>
      match q.1 with
      | r' :: rest => if decide (r' = r) then Some (rest, q.2) else None
      | [] => None
      end
  | EvOutgoingPush c => Some (q.1, q.2 ++ [c])
  | EvOutgoingRun c =>
      match q.2 with
      | c' :: rest => if decide (c' = c) then Some (q.1, rest) else None
      | [] => None
      end
  | _ => Some q
  end.

Fixpoint replay (tr : list event) : option (list request * list completion) :=
  match tr with
  | [] => Some ([], [])
  | e :: older =>
      match replay older with
      | Some q => replay_event e q
      | None => None
      end
  end.

(** The callbacks pushed and run so far, oldest first. *)
Fixpoint incoming_pushed (tr : list event) : list request :=
  match tr with
  | [] => []
  | EvIncomingPush r :: older => incoming_pushed older ++ [r]
  | _ :: older => incoming_pushed older
  end.

Fixpoint incoming_run (tr : list event) : list request :=
  match tr with
  | [] => []
  | EvIncomingRun r :: older => incoming_run older ++ [r]
  | _ :: older => incoming_run older
  end.

Fixpoint outgoing_pushed (tr : list event) : list completion :=
  match tr with
  | [] => []
  | EvOutgoingPush c :: older => outgoing_pushed older ++ [c]
  | _ :: older => outgoing_pushed older
  end.

Fixpoint outgoing_run (tr : list event) : list completion :=
  match tr with
  | [] => []
  | EvOutgoingRun c :: older => outgoing_run older ++ [c]
  | _ :: older => outgoing_run older
  end.

Definition queue_inv (t : SlpThread) : Prop :=
  replay (trace t) = Some (m_incoming_queue t, m_outgoing_queue t).


(** The url handed to SLPReg and SLPDereg for [url]. *)
Definition service_url (url : string) : string :=
  String.append SERVICE_NAME (String.append "://" url).

(** The calls of SLPReg so far, oldest first: url and lifetime. *)
Fixpoint registrations (tr : list event) : list (string * Z) :=
  match tr with
  | [] => []
  | EvSLPReg srvurl l :: older => registrations older ++ [(srvurl, l)]
  | _ :: older => registrations older
  end.

(** The lease as the specification clamps it: at least the floor, then
    at least the minimum the service advertises when it advertises one. *)
Definition clamped_lease (requested floor server_minimum : Z) : Z :=
  let l := Z.max requested floor in
  if server_minimum =? 0 then l else Z.max l server_minimum.

(** What SLPGetRefreshInterval answers when it is the next thing done
    after [tr]. *)
Definition refresh_interval_after (env : Environment) (tr : list event) : Z :=
  to_ushort (env_SLPGetRefreshInterval env (EvSLPGetRefreshInterval :: tr)).

(** No lease under the floor is stored or handed to SLPReg. *)
Definition floor_inv (t : SlpThread) : Prop :=
  (forall url st, m_url_map t !! url = Some st -> MIN_LIFETIME <= lifetime st) /\
  (forall srvurl l, (srvurl, l) ∈ registrations (trace t) -> MIN_LIFETIME <= l).

(** Pending timers have handles the select server gave out; a renewal
    timer belongs to an entry that remembers its handle, and every entry
    has its renewal timer pending; a discovery timer is the one
    [m_discovery_timeout] remembers, and [m_discovery_timeout] is a
    pending discovery timer unless it is [INVALID_TIMEOUT]. *)
Definition timer_inv (t : SlpThread) : Prop :=
  (0 < ss_next_id (m_ss t))%nat /\
  (forall id ms cb, ss_timeouts (m_ss t) !! id = Some (ms, cb) ->
     (0 < id < ss_next_id (m_ss t))%nat) /\
  (forall id ms url,
     ss_timeouts (m_ss t) !! id = Some (ms, RegistrationTriggered_cb url) ->
     exists st, m_url_map t !! url = Some st /\ timeout st = id) /\
  (forall id ms,
     ss_timeouts (m_ss t) !! id = Some (ms, DiscoveryTriggered_cb) ->
     m_discovery_timeout t = id) /\
  (forall url st, m_url_map t !! url = Some st ->
     exists ms,
       ss_timeouts (m_ss t) !! timeout st
       = Some (ms, RegistrationTriggered_cb url)) /\
  (m_discovery_timeout t = INVALID_TIMEOUT \/
   exists ms,
     ss_timeouts (m_ss t) !! m_discovery_timeout t
     = Some (ms, DiscoveryTriggered_cb)).

(** Every lifetime on its way to SLPReg, whether queued, stored or
    handed over already, is an [unsigned short] of at least twice the
    aging time. *)
Definition lease_inv (aging : Z) (t : SlpThread) : Prop :=
  (forall callback url l,
     RegisterRequest_cb callback url l ∈ m_incoming_queue t ->
     2 * aging <= l <= 65535) /\
  (forall url st, m_url_map t !! url = Some st ->
     2 * aging <= lifetime st <= 65535) /\
  (forall srvurl l, (srvurl, l) ∈ registrations (trace t) ->
     2 * aging <= l <= 65535).

(** The two wake channels and the SLP handle are held exactly while
    [m_init_ok] is set, and so long is the incoming socket registered
    with the worker's select server. *)
Definition resource_inv (t : SlpThread) : Prop :=
  sock_open (m_incoming_socket t) = m_init_ok t /\
  sock_open (m_outgoing_socket t) = m_init_ok t /\
  m_slp_handle t = m_init_ok t /\
  ss_sockets (m_ss t) = (if m_init_ok t then [incoming_socket] else []).

(** A discovery request, its completion or its timer only exist when
    the object was given a discovery callback. *)
Definition callback_inv (t : SlpThread) : Prop :=
  m_discovery_callback t = None ->
  (DiscoveryRequest_cb ∉ m_incoming_queue t) /\
  (forall ok found, DiscoveryActionComplete_cb ok found ∉ m_outgoing_queue t) /\
  (forall id ms, ss_timeouts (m_ss t) !! id <> Some (ms, DiscoveryTriggered_cb)).

(** What [WakeUpSocket] adds to the trace: the byte is only written to
    an open socket. *)
Definition sent (s : socket_name) (t : SlpThread) : list event :=
  if sock_open (socket_of s t) then [EvSocketSend s] else [].

(** Both channels of an SLP call, the return code and what the callback
    has left in its cookie, say SLP_OK. *)
Definition both_ok (err signal : SLPError) : bool :=
  (err =? SLP_OK) && (signal =? SLP_OK).

(** The trace after the cancellation of [id], which the code only asks
    for when the handle is not [INVALID_TIMEOUT]. *)
Definition cancelling (id : timeout_id) (tr : list event) : list event :=
  if (id =? INVALID_TIMEOUT)%nat then tr else EvRemoveTimeout id :: tr.

(** The smallest of the leases and of the cap. *)
Definition minimum_lease (leases : list Z) (cap : Z) : Z :=
  foldr Z.min cap leases.

(** *** Two worlds to run examples in *)

(** Everything works; SLPFindSrvs finds A for 10 s and B for 30 s; no
    minimum refresh interval is advertised. *)
Definition calm : Environment :=
  {| env_pipe := fun _ => true;
     env_SLPOpen := fun _ => SLP_OK;
     env_SLPFindSrvs := fun _ =>
       (SLP_OK,
        [ {| rep_srvurl := "A"; rep_lifetime := 10; rep_errcode := SLP_OK |};
          {| rep_srvurl := "B"; rep_lifetime := 30; rep_errcode := SLP_OK |};
          {| rep_srvurl := ""; rep_lifetime := 0;
             rep_errcode := SLP_LAST_CALL |} ]);
     env_SLPReg := fun _ => (SLP_OK, [SLP_OK]);
     env_SLPDereg := fun _ => (SLP_OK, [SLP_OK]);
     env_SLPGetRefreshInterval := fun _ => 0;
     env_uninitialised := fun _ => -1 |}.

(** Pipes can be had, but every call of the SLP library fails:
    SLPOpen with SLP_NETWORK_INIT_FAILED (-20), the others with
    SLP_NETWORK_TIMED_OUT (-19) on both channels. *)
Definition stormy : Environment :=
  {| env_pipe := fun _ => true;
     env_SLPOpen := fun _ => -20;
     env_SLPFindSrvs := fun _ =>
       (-19, [ {| rep_srvurl := ""; rep_lifetime := 0; rep_errcode := -19 |} ]);
     env_SLPReg := fun _ => (-19, [-19]);
     env_SLPDereg := fun _ => (-19, [-19]);
     env_SLPGetRefreshInterval := fun _ => 0;
     env_uninitialised := fun _ => -1 |}.

(** * tools/dmx_trigger/Context.cpp: the variables of a trigger

    [VariableMap] is declared in Context.h; Context.cpp uses it as a
    map from names to values ([find], [operator[]], iteration), and the
    order of its iteration is left open here: [AsString_in] takes it as
    an argument. *)

Record Context := {
  m_variables : gmap string string;
}.

(** [*value] is only written when the name is found: the result is the
    return value and the content of [*value] afterwards. *)
Definition Lookup (name : string) (value : string) (c : Context)
    : bool * string :=
  match m_variables c !! name with
  | None => (false, value)
  | Some v => (true, v)
  end.

(** [m_variables[name] = value] *)
Definition Update (name value : string) (c : Context) : Context :=
  {| m_variables := <[name := value]> (m_variables c) |}.

(** [keys] are sorted with [operator<] of [std::string], which compares
    by unsigned bytes and then by length: the order [String.le]. *)

(** The body of the second loop of [AsString]: [first] says that [iter]
    is still [keys.begin()]. *)
Fixpoint AsString_stream (variables : gmap string string) (first : bool)
    (keys : list string) (str : string) : string :=
  match keys with
  | [] => str
  | key :: rest =>
      let str1 := if first then str else String.append str ", " in
      (* the key was taken from the map, so [find] finds it *)
      let value := default EmptyString (variables !! key) in
      AsString_stream variables false rest
        (String.append str1 (String.append key (String.append "=" value)))
  end.

(** [iteration] is the order in which the iteration over [m_variables]
    yields the names. *)
Definition AsString_in (iteration : list string) (c : Context) : string :=
  let keys := merge_sort String.le iteration in
  AsString_stream (m_variables c) true keys EmptyString.

Definition AsString (c : Context) : string :=
  AsString_in (map fst (map_to_list (m_variables c))) c.

(** ** More vocabulary *)

(** The text [AsString] gives for one variable. *)
Definition binding_text (variables : gmap string string) (key : string)
    : string :=
  String.append key
    (String.append "=" (default EmptyString (variables !! key))).

(** Texts joined by ", ". *)
Fixpoint joined (texts : list string) : string :=
  match texts with
  | [] => EmptyString
  | [text] => text
  | text :: rest => String.append text (String.append ", " (joined rest))
  end.

(** The caller's callbacks run so far, oldest first, each as the
    completion that would run it. *)
Fixpoint invoked (tr : list event) : list completion :=
  match tr with
  | [] => []
  | EvRegistrationCallback callback ok :: older =>
      invoked older ++ [SimpleActionComplete_cb callback ok]
  | EvDiscoveryCallback ok found :: older =>
      invoked older ++ [DiscoveryActionComplete_cb ok found]
  | _ :: older => invoked older
  end.

(** The number of calls of SLPFindSrvs so far. *)
Fixpoint finds (tr : list event) : nat :=
  match tr with
  | [] => 0
  | EvSLPFindSrvs _ :: older => S (finds older)
  | _ :: older => finds older
  end.

(** [c] is a completion for the caller of [r]. *)
Definition answers (r : request) (c : completion) : Prop :=
  match r, c with
  | DiscoveryRequest_cb, DiscoveryActionComplete_cb _ _ => True
  | RegisterRequest_cb callback _ _, SimpleActionComplete_cb callback' _ =>
      callback = callback'
  | DeregisterRequest_cb callback _, SimpleActionComplete_cb callback' _ =>
      callback = callback'
  | _, _ => False
  end.

(** The user callbacks that have run are those of the completions that
    have run, and an object without a discovery callback has never
    called SLPFindSrvs. *)
Definition delivery_inv (t : SlpThread) : Prop :=
  invoked (trace t) = outgoing_run (trace t) /\
  (m_discovery_callback t = None -> finds (trace t) = 0%nat).

(** The renewal timer of an entry is due (lifetime - aging time - 1)
    seconds after it was armed. *)
Definition delay_inv (aging : Z) (t : SlpThread) : Prop :=
  forall url st, m_url_map t !! url = Some st ->
    ss_timeouts (m_ss t) !! timeout st
    = Some ((to_ushort (lifetime st - aging) - 1) * 1000,
            RegistrationTriggered_cb url).

(** The number of calls into the SLP library so far. *)
Fixpoint slp_calls (tr : list event) : nat :=
  match tr with
  | [] => 0
  | (EvSLPOpen | EvSLPClose | EvSLPFindSrvs _ | EvSLPReg _ _ | EvSLPDereg _
     | EvSLPGetRefreshInterval) :: older => S (slp_calls older)
  | _ :: older => slp_calls older
  end.

(** The reports of SLPFindSrvs that carry a url. *)
Definition reported_urls (reports : list srv_report) : list (string * Z) :=
  map (fun r => (rep_srvurl r, to_ushort (rep_lifetime r)))
      (filter (fun r => rep_errcode r = SLP_OK) reports).

(** A world like [calm], except that SLPFindSrvs returns SLP_OK and
    its callback is given [reports]. *)
Definition reporting (reports : list srv_report) : Environment :=
  {| env_pipe := fun _ => true;
     env_SLPOpen := fun _ => SLP_OK;
     env_SLPFindSrvs := fun _ => (SLP_OK, reports);
     env_SLPReg := fun _ => (SLP_OK, [SLP_OK]);
     env_SLPDereg := fun _ => (SLP_OK, [SLP_OK]);
     env_SLPGetRefreshInterval := fun _ => 0;
     env_uninitialised := fun _ => -1 |}.

(** A url found, and the report of SLP_NETWORK_TIMED_OUT (-19). *)
Definition found_report (url : string) (l : Z) : srv_report :=
  {| rep_srvurl := url; rep_lifetime := l; rep_errcode := SLP_OK |}.
Definition error_report : srv_report :=
  {| rep_srvurl := ""; rep_lifetime := 0; rep_errcode := -19 |}.
Definition last_call_report : srv_report :=
  {| rep_srvurl := ""; rep_lifetime := 0; rep_errcode := SLP_LAST_CALL |}.

(** * Reasoning about member functions *)

Lemma to_ushort_range z : 0 <= to_ushort z <= 65535.
Proof. unfold to_ushort. pose proof (Z.mod_pos_bound z 65536). lia. Qed.

Lemma to_ushort_small z : 0 <= z <= 65535 -> to_ushort z = z.
Proof. intros. unfold to_ushort. apply Z.mod_small. lia. Qed.

Ltac unfold_members :=
  unfold exec, eval, step, timeout_fires, NewRequest_iteration,
    RequestComplete_iteration, run_timer, run_request, run_completion,
    RegistrationTriggered, DiscoveryTriggered, SimpleActionComplete,
    DiscoveryActionComplete, DeregisterRequest, RegisterRequest,
    PerformRegistration, DiscoveryRequest, DeRegister, Register, Discover,
    Cleanup, Init, SLPDereg, SLPReg, SLPFindSrvs, SLPGetRefreshInterval,
    SLPClose, SLPOpen, uninitialised, RemoveTimeout, RegisterSingleTimeout,
    AddToOutgoingQueue, AddToIncomingQueue, WakeUpSocket, LoopbackSocket_Send,
    LoopbackSocket_Close, LoopbackSocket_Init, when, emit, modify, gets,
    bind, ret in *.

Lemma EmptySocket_loop_run s n t :
  sock_pending (socket_of s t) = n ->
  EmptySocket_loop n s t = (tt, emptied s t).
Proof.
  revert t. induction n as [|n IH]; intros t Hn; unfold emptied; rewrite Hn.
  - reflexivity.
  - cbn. unfold bind, modify. rewrite IH by (destruct s; reflexivity).
    unfold emptied. destruct s, n; reflexivity.
Qed.

Lemma EmptySocket_run s t : EmptySocket s t = (tt, emptied s t).
Proof. unfold EmptySocket, bind, gets. now apply EmptySocket_loop_run. Qed.

(** Split on whatever the code branches on, innermost test first. *)
Ltac crunch :=
  repeat (cbn in *;
    match goal with
    | |- context [match ?x with _ => _ end] =>
        lazymatch x with
        | context [match _ with _ => _ end] => fail
        | _ => destruct x eqn:?
        end
    end); cbn in *.

Lemma run_nil env aging t : run env aging [] t = t.
Proof. reflexivity. Qed.

Lemma run_snoc env aging ops o t :
  run env aging (ops ++ [o]) t = exec (step env aging o) (run env aging ops t).
Proof. unfold run. now rewrite fold_left_app. Qed.

(** Whatever holds at construction and is kept by every step holds after
    every run. *)
Lemma run_invariant env aging (P : SlpThread -> Prop) :
  (forall o t, P t -> P (exec (step env aging o) t)) ->
  forall ops t, P t -> P (run env aging ops t).
Proof.
  intros Hstep ops. induction ops as [|o ops IH]; intros t Ht; [exact Ht|].
  cbn. apply IH, Hstep, Ht.
Qed.

(** ** The queues against the trace *)


Lemma replay_pushed_run tr q :
  replay tr = Some q ->
  incoming_pushed tr = incoming_run tr ++ q.1 /\
  outgoing_pushed tr = outgoing_run tr ++ q.2.
Proof.
  revert q. induction tr as [|e older IH]; intros q H; cbn in *.
  - injection H as <-. auto.
  - destruct (replay older) as [[qi qo]|] eqn:E; [|discriminate].
    destruct (IH _ eq_refl) as [Hi Ho]. cbn in *.
    destruct e; cbn in *; try (injection H as <-; cbn; auto; fail).
    + injection H as <-. cbn. rewrite Hi, app_assoc. auto.
    + destruct qi as [|r' rest]; [discriminate|].
      destruct (decide (r' = r)) as [->|]; [|discriminate].
      injection H as <-. cbn. rewrite Hi, <- app_assoc. auto.
    + injection H as <-. cbn. rewrite Ho, app_assoc. auto.
    + destruct qo as [|c' rest]; [discriminate|].
      destruct (decide (c' = c)) as [->|]; [|discriminate].
      injection H as <-. cbn. rewrite Ho, <- app_assoc. auto.
Qed.

Lemma queue_inv_new ss cb refresh : queue_inv (SlpThread_new ss cb refresh).
Proof. reflexivity. Qed.

Lemma queue_inv_step env aging o t :
  queue_inv t -> queue_inv (exec (step env aging o) t).
Proof.
  unfold queue_inv. intros H.
  destruct o; unfold_members; rewrite ?EmptySocket_run; unfold emptied;
    crunch; simplify_eq/=;
    rewrite ?H; cbn; rewrite ?decide_True by reflexivity; congruence.
Qed.

Lemma queue_inv_run env aging ss cb refresh ops :
  queue_inv (run env aging ops (SlpThread_new ss cb refresh)).
Proof.
  apply (run_invariant env aging queue_inv); [apply queue_inv_step|].
  apply queue_inv_new.
Qed.

(** ** Draining a queue to the end *)






Lemma step_WorkerIteration env aging t :
  exec (step env aging WorkerIteration) t
  = exec (NewRequest_iteration env aging) t.
Proof.
  unfold exec, step, bind, ret.
  now destruct (NewRequest_iteration env aging t).
Qed.









(** ** Leases and the floor *)

Ltac boolprops :=
  repeat match goal with
  | H : _ && _ = true |- _ => apply andb_true_iff in H; destruct H
  | H : _ && _ = false |- _ => apply andb_false_iff in H
  | H : negb _ = true |- _ => apply negb_true_iff in H
  | H : negb _ = false |- _ => apply negb_false_iff in H
  | H : (_ =? _) = true |- _ => apply Z.eqb_eq in H
  | H : (_ =? _) = false |- _ => apply Z.eqb_neq in H
  | H : (_ <? _) = true |- _ => apply Z.ltb_lt in H
  | H : (_ <? _) = false |- _ => apply Z.ltb_ge in H
  | H : (_ <=? _) = true |- _ => apply Z.leb_le in H
  | H : (_ <=? _) = false |- _ => apply Z.leb_gt in H
  | H : (_ =? _)%nat = true |- _ => apply Nat.eqb_eq in H
  | H : (_ =? _)%nat = false |- _ => apply Nat.eqb_neq in H
  end.

Lemma clamped_lease_code lifetime0 min_lifetime :
  (if negb (min_lifetime =? 0) && (Z.max lifetime0 MIN_LIFETIME <? min_lifetime)
   then min_lifetime else Z.max lifetime0 MIN_LIFETIME)
  = clamped_lease lifetime0 MIN_LIFETIME min_lifetime.
Proof.
  unfold clamped_lease, MIN_LIFETIME.
  destruct (min_lifetime =? 0) eqn:E0; cbn; [reflexivity|].
  destruct (Z.max lifetime0 5 <? min_lifetime) eqn:E1; lia.
Qed.

Lemma clamped_lease_floor requested floor server_minimum :
  floor <= clamped_lease requested floor server_minimum.
Proof. unfold clamped_lease. destruct (server_minimum =? 0); lia. Qed.

Lemma floor_inv_new ss cb refresh : floor_inv (SlpThread_new ss cb refresh).
Proof.
  split; cbn.
  - intros url st H. now rewrite lookup_empty in H.
  - intros srvurl l H. now apply elem_of_nil in H.
Qed.

Ltac map_cases :=
  repeat match goal with
  | H : context [<[?i := _]> _ !! ?j] |- _ =>
      rewrite lookup_insert in H; destruct (decide (i = j)); simplify_eq/=
  | H : context [alter _ ?i _ !! ?j] |- _ =>
      rewrite lookup_alter in H; destruct (decide (i = j)); simplify_eq/=
  | H : context [delete ?i _ !! ?j] |- _ =>
      rewrite lookup_delete in H; destruct (decide (i = j)); simplify_eq/=
  | H : _ <$> _ = Some _ |- _ =>
      apply fmap_Some in H; destruct H as (? & ? & ?); simplify_eq/=
  | H : _ ∈ _ ++ _ |- _ => apply elem_of_app in H; destruct H
  | H : _ ∈ [_] |- _ => apply list_elem_of_singleton in H; simplify_eq/=
  end.

Lemma floor_inv_step env aging o t :
  floor_inv t -> floor_inv (exec (step env aging o) t).
Proof.
  unfold floor_inv, MIN_LIFETIME. intros [Hmap Hreg].
  destruct o; unfold_members; rewrite ?EmptySocket_run; unfold emptied;
    crunch; (split; [intros url' st' Hl|intros srvurl' l' Hl]);
    map_cases; unfold MIN_LIFETIME in *; boolprops; eauto; try lia;
    try (match goal with
         | H : m_url_map t !! _ = Some _ |- _ => apply Hmap in H
         end; cbn in *; lia).
Qed.

Lemma floor_inv_run env aging ss cb refresh ops :
  floor_inv (run env aging ops (SlpThread_new ss cb refresh)).
Proof.
  apply (run_invariant env aging floor_inv); [apply floor_inv_step|].
  apply floor_inv_new.
Qed.

Lemma RegisterRequest_lease env aging t callback url lifetime0 :
  let granted := clamped_lease lifetime0 MIN_LIFETIME
                   (refresh_interval_after env (trace t)) in
  let t' := exec (RegisterRequest env aging callback url lifetime0) t in
  (exists st, m_url_map t' !! url = Some st /\ lifetime st = granted) /\
  (registrations (trace t') = registrations (trace t) \/
   registrations (trace t')
   = registrations (trace t) ++ [(service_url url, granted)]).
Proof.
  intros granted. subst granted.
  rewrite <- clamped_lease_code. unfold refresh_interval_after.
  unfold_members. cbn.
  set (m := to_ushort _).
  match goal with
  | |- context [if ?c then m else ?e] => set (L := if c then m else e)
  end.
  clearbody L. crunch; boolprops; (split; [|auto]);
    rewrite ?lookup_alter_eq, ?lookup_insert_eq; cbn; eauto.
Qed.

(** ** Timers *)

Lemma timer_inv_new ss cb refresh : timer_inv (SlpThread_new ss cb refresh).
Proof.
  unfold timer_inv, SlpThread_new, SelectServer_new; cbn.
  split_and!; try lia; try (intros *; rewrite lookup_empty; done).
Qed.

(** Use what the invariant says about every entry and every pending
    timer in sight. *)
Ltac use_timer_inv H1 H2 H3 H4 :=
  repeat match goal with
  | H : m_url_map ?t !! ?url = Some ?st |- _ =>
      lazymatch goal with
      | _ : ss_timeouts (m_ss t) !! timeout st
            = Some (_, RegistrationTriggered_cb url) |- _ => fail
      | _ =>
          let ms := fresh "ms" in
          let Ht := fresh "Ht" in
          destruct (H4 _ _ H) as [ms Ht]
      end
  end;
  repeat match goal with
  | H : ss_timeouts (m_ss ?t) !! ?id = Some (?ms, ?cb) |- _ =>
      lazymatch goal with
      | _ : (0 < id < ss_next_id (m_ss t))%nat |- _ => fail
      | _ => pose proof (H1 _ _ _ H)
      end
  end;
  repeat match goal with
  | H : ss_timeouts (m_ss ?t) !! ?id = Some (?ms, RegistrationTriggered_cb ?url)
    |- _ =>
      let st := fresh "st" in
      let Hst := fresh "Hst" in
      let Hid := fresh "Hid" in
      destruct (H2 _ _ _ H) as (st & Hst & Hid); revert H
  | H : ss_timeouts (m_ss ?t) !! ?id = Some (?ms, DiscoveryTriggered_cb) |- _ =>
      let Hid := fresh "Hid" in
      pose proof (H3 _ _ H) as Hid; revert H
  end; intros.

Ltac map_goal :=
  repeat first
    [ rewrite lookup_insert_eq | rewrite lookup_alter_eq
    | rewrite lookup_delete_eq
    | rewrite lookup_insert_ne by congruence
    | rewrite lookup_alter_ne by congruence
    | rewrite lookup_delete_ne by congruence ].

Ltac map_goal_cases :=
  repeat match goal with
  | |- context [alter _ ?u _ !! ?v] =>
      rewrite lookup_alter; destruct (decide (u = v)); simplify_eq/=
  | |- context [<[?u := _]> _ !! ?v] =>
      rewrite lookup_insert; destruct (decide (u = v)); simplify_eq/=
  | |- context [delete ?u _ !! ?v] =>
      rewrite lookup_delete; destruct (decide (u = v)); simplify_eq/=
  end.

Ltac finish_lookup :=
  repeat match goal with
  | H : ?m !! ?k = _ |- context [?m !! ?k] => rewrite H
  end; cbn; eauto.

Lemma timer_inv_step env aging o t :
  timer_inv t -> timer_inv (exec (step env aging o) t).
Proof.
  unfold timer_inv. intros (H0 & H1 & H2 & H3 & H4 & H5).
  destruct o; unfold_members; rewrite ?EmptySocket_run; unfold emptied;
    crunch;
    (split; [try lia|split; [intros id' ms' cb' Hl
      |split; [intros id' ms' url' Hl|split; [intros id' ms' Hl
      |split; [intros url' st' Hl|]]]]]);
    map_cases; boolprops; unfold INVALID_TIMEOUT in *;
    use_timer_inv H1 H2 H3 H4; simplify_eq/=; try lia; try congruence; eauto;
    try (map_goal_cases; cbn; eauto; try lia; try congruence; finish_lookup;
         fail);
    try (right; map_goal_cases; cbn; eauto; try lia; try congruence;
         finish_lookup; fail);
    try (destruct H5 as [H5|[ms5 H5]]; [left; assumption|right];
         pose proof (H1 _ _ _ H5);
         map_goal_cases; cbn; eauto; try lia; try congruence; finish_lookup;
         fail);
    try (destruct H5 as [H5|[ms5 H5]]; [lia|];
         map_goal_cases; cbn; eauto; try lia; try congruence; finish_lookup;
         fail).
Qed.

Lemma timer_inv_run env aging ss cb refresh ops :
  timer_inv (run env aging ops (SlpThread_new ss cb refresh)).
Proof.
  apply (run_invariant env aging timer_inv); [apply timer_inv_step|].
  apply timer_inv_new.
Qed.


(** ** Leases and the aging time *)

Ltac ushort_facts :=
  repeat match goal with
  | |- context [to_ushort ?x] =>
      lazymatch goal with
      | _ : 0 <= to_ushort x <= 65535 |- _ => fail
      | _ => pose proof (to_ushort_range x)
      end
  | _ : context [to_ushort ?x] |- _ =>
      lazymatch goal with
      | _ : 0 <= to_ushort x <= 65535 |- _ => fail
      | _ => pose proof (to_ushort_range x)
      end
  end.

Lemma lease_inv_new aging ss cb refresh :
  lease_inv aging (SlpThread_new ss cb refresh).
Proof.
  unfold lease_inv, SlpThread_new; cbn. split_and!; intros *.
  - intros H. now apply elem_of_nil in H.
  - rewrite lookup_empty. done.
  - intros H. now apply elem_of_nil in H.
Qed.

Lemma lease_inv_step env aging o t :
  0 <= aging -> 2 * aging <= 65535 ->
  lease_inv aging t -> lease_inv aging (exec (step env aging o) t).
Proof.
  unfold lease_inv. intros Hag Hag2 (Hq & Hm & Hr).
  destruct o; unfold_members; rewrite ?EmptySocket_run; unfold emptied;
    crunch;
    (split; [intros cb' url' l' Hl
            |split; [intros url' st' Hl|intros srvurl' l' Hl]]);
    try match goal with
    | H : m_incoming_queue t = _ |- _ => try rewrite H in Hq; try rewrite H in Hl
    end;
    map_cases; unfold MIN_LIFETIME in *; boolprops; eauto;
    try (rewrite to_ushort_small by lia); ushort_facts; try lia;
    try (match goal with
         | H : m_url_map t !! _ = Some _ |- _ => apply Hm in H
         end; cbn in *; lia);
    try (eapply Hq; apply elem_of_cons; eauto; fail);
    try (match goal with
         | |- context [Z.max ?l 5] =>
             let H := fresh in
             assert (2 * aging <= l <= 65535) as H
               by (eapply Hq; apply elem_of_cons; left; reflexivity); lia
         | _ : context [Z.max ?l 5] |- _ =>
             let H := fresh in
             assert (2 * aging <= l <= 65535) as H
               by (eapply Hq; apply elem_of_cons; left; reflexivity); lia
         end).
Qed.

Lemma lease_inv_run env aging ss cb refresh ops :
  0 <= aging -> 2 * aging <= 65535 ->
  lease_inv aging (run env aging ops (SlpThread_new ss cb refresh)).
Proof.
  intros Hag Hag2.
  apply (run_invariant env aging (lease_inv aging)).
  - intros o t. now apply lease_inv_step.
  - apply lease_inv_new.
Qed.

(** ** Resources *)

Lemma resource_inv_new ss cb refresh :
  resource_inv (SlpThread_new ss cb refresh).
Proof. repeat split. Qed.

Lemma resource_inv_step env aging o t :
  resource_inv t -> resource_inv (exec (step env aging o) t).
Proof.
  unfold resource_inv. intros (Hi & Ho & Hh & Hs).
  destruct o; unfold_members; rewrite ?EmptySocket_run; unfold emptied;
    crunch; boolprops; simplify_eq/=;
    repeat match goal with
    | H : _ = m_init_ok t |- _ => rewrite <- H in *
    | H : m_init_ok t = _ |- _ => rewrite H in *
    end; simplify_eq/=;
    try (rewrite Hs); try done; try (split_and!; congruence).
Qed.

Lemma resource_inv_run env aging ss cb refresh ops :
  resource_inv (run env aging ops (SlpThread_new ss cb refresh)).
Proof.
  apply (run_invariant env aging resource_inv); [apply resource_inv_step|].
  apply resource_inv_new.
Qed.

(** ** The discovery callback *)

Lemma callback_inv_new ss cb refresh :
  callback_inv (SlpThread_new ss cb refresh).
Proof.
  intros _. unfold SlpThread_new, SelectServer_new; cbn. split_and!.
  - apply not_elem_of_nil.
  - intros ok found. apply not_elem_of_nil.
  - intros id ms. now rewrite lookup_empty.
Qed.

Lemma step_discovery_callback env aging o t :
  m_discovery_callback (exec (step env aging o) t) = m_discovery_callback t.
Proof.
  destruct o; unfold_members; rewrite ?EmptySocket_run; unfold emptied;
    crunch; congruence.
Qed.

Lemma callback_inv_step env aging o t :
  callback_inv t -> callback_inv (exec (step env aging o) t).
Proof.
  unfold callback_inv. intros Hinv Hcb.
  rewrite step_discovery_callback in Hcb.
  destruct (Hinv Hcb) as (Hq & Hc & Ht). clear Hinv.
  destruct o; unfold_members; rewrite ?EmptySocket_run; unfold emptied;
    crunch; simplify_eq/=;
    (split; [intros Hl|split; [intros ok' found' Hl|intros id' ms' Hl]]);
    try match goal with
    | H : m_incoming_queue t = _ |- _ => try rewrite H in Hl
    end;
    try match goal with
    | H : m_outgoing_queue t = _ |- _ => try rewrite H in Hl
    end;
    map_cases; simplify_eq/=;
    try (apply Hq; (assumption || (apply elem_of_cons; eauto)); fail);
    try (eapply Hc; (eassumption || (apply elem_of_cons; eauto)); fail);
    try (eapply Ht; eassumption);
    try (apply elem_of_cons in Hl; destruct Hl; simplify_eq/=; eauto; fail).
Qed.

Lemma callback_inv_run env aging ss cb refresh ops :
  callback_inv (run env aging ops (SlpThread_new ss cb refresh)).
Proof.
  apply (run_invariant env aging callback_inv); [apply callback_inv_step|].
  apply callback_inv_new.
Qed.

(** ** Calls of SLPReg *)

Lemma app_singleton_self {A} (l : list A) x : l <> l ++ [x].
Proof.
  intros H. apply (f_equal length) in H. rewrite length_app in H. cbn in H. lia.
Qed.

Lemma service_url_inj url1 url2 : service_url url1 = service_url url2 -> url1 = url2.
Proof.
  unfold service_url, SERVICE_NAME. cbn. intros H. now simplify_eq.
Qed.

(** A step calls SLPReg at most once, and when it does, the entry of
    the url holds the lifetime given to SLPReg and the handle of a
    pending timer for the renewal. *)
Lemma step_registration env aging o t :
  let t' := exec (step env aging o) t in
  registrations (trace t') = registrations (trace t) \/
  exists url st,
    registrations (trace t')
    = registrations (trace t) ++ [(service_url url, lifetime st)] /\
    m_url_map t' !! url = Some st /\
    ss_timeouts (m_ss t') !! timeout st
    = Some ((to_ushort (lifetime st - aging) - 1) * 1000,
            RegistrationTriggered_cb url).
Proof.
  destruct o; unfold_members; rewrite ?EmptySocket_run; unfold emptied;
    crunch; auto;
    right;
    match goal with
    | |- exists url st, _ ++ [(_, ?L)] = _ /\ _ =>
        match goal with
        | |- context [RegistrationTriggered_cb ?u] =>
            exists u, {| lifetime := L; timeout := ss_next_id (m_ss t) |}
        end
    end; cbn; map_goal;
    repeat match goal with
    | H : ?m !! ?k = _ |- context [?m !! ?k] => rewrite H
    end; cbn; auto.
Qed.

(** ** The two channels of an SLP call *)

(** What the callbacks leave in a cookie is only ever looked at as a
    whole from here on. *)
Arguments deliver_reports : simpl never.
Arguments deliver_errors : simpl never.

Ltac flags :=
  unfold both_ok;
  repeat match goal with
  | |- context [?a =? SLP_OK] => destruct (a =? SLP_OK)
  end; cbn;
  repeat match goal with
  | |- context [sock_open ?s] => destruct (sock_open s)
  end; reflexivity.

Lemma both_ok_true err signal :
  both_ok err signal = true <-> err = SLP_OK /\ signal = SLP_OK.
Proof.
  unfold both_ok. rewrite andb_true_iff, !Z.eqb_eq. reflexivity.
Qed.

Lemma deliver_errors_last errcodes errcode cookie :
  deliver_errors (errcodes ++ [errcode]) cookie = errcode.
Proof. unfold deliver_errors. now rewrite fold_left_app. Qed.

Lemma deliver_reports_last reports r cookie :
  error (deliver_reports (reports ++ [r]) cookie)
  = if (rep_errcode r =? SLP_OK) || (rep_errcode r =? SLP_LAST_CALL)
    then SLP_OK else rep_errcode r.
Proof.
  unfold deliver_reports. rewrite fold_left_app. cbn. unfold ServiceCallback.
  destruct (rep_errcode r =? SLP_OK), (rep_errcode r =? SLP_LAST_CALL);
    reflexivity.
Qed.

Lemma DiscoveryRequest_outgoing env t :
  let before := cancelling (m_discovery_timeout t) (trace t) in
  let answer := env_SLPFindSrvs env (EvSLPFindSrvs SERVICE_NAME :: before) in
  let cookie :=
    deliver_reports answer.2
      {| error := env_uninitialised env before; urls := [] |} in
  m_outgoing_queue (exec (DiscoveryRequest env) t)
  = m_outgoing_queue t
    ++ [DiscoveryActionComplete_cb (both_ok answer.1 (error cookie))
          (map fst (urls cookie))].
Proof.
  cbn zeta. unfold cancelling. unfold_members. cbn.
  destruct (m_discovery_timeout t =? INVALID_TIMEOUT)%nat; cbn;
    destruct (env_SLPFindSrvs _ _) as [err reports]; cbn;
    flags.
Qed.

Lemma PerformRegistration_result env aging url lifetime0 t :
  let answer := env_SLPReg env (EvSLPReg (service_url url) lifetime0 :: trace t) in
  let callbackerr := deliver_errors answer.2 (env_uninitialised env (trace t)) in
  eval (PerformRegistration env aging url lifetime0) t
  = both_ok answer.1 callbackerr.
Proof.
  cbn zeta. unfold_members. unfold service_url. cbn.
  destruct (env_SLPReg _ _) as [err errcodes]; cbn.
  flags.
Qed.

Lemma RegisterRequest_outgoing env aging t callback url lifetime0 :
  let granted := clamped_lease lifetime0 MIN_LIFETIME
                   (refresh_interval_after env (trace t)) in
  let asked := EvSLPGetRefreshInterval :: trace t in
  let before :=
    match m_url_map t !! url with
    | Some st => cancelling (timeout st) asked
    | None => asked
    end in
  let answer := env_SLPReg env (EvSLPReg (service_url url) granted :: before) in
  let callbackerr := deliver_errors answer.2 (env_uninitialised env before) in
  (forall st, m_url_map t !! url = Some st -> lifetime st <> granted) ->
  m_outgoing_queue (exec (RegisterRequest env aging callback url lifetime0) t)
  = m_outgoing_queue t
    ++ [SimpleActionComplete_cb callback (both_ok answer.1 callbackerr)].
Proof.
  cbn zeta. rewrite <- clamped_lease_code. unfold refresh_interval_after.
  intros Hdiff. unfold cancelling, service_url. unfold_members. cbn.
  set (m := to_ushort _) in *.
  match goal with
  | |- context [if ?c then m else ?e] => set (L := if c then m else e) in *
  end.
  clearbody L.
  destruct (m_url_map t !! url) as [st|] eqn:Hst; cbn.
  - specialize (Hdiff st eq_refl). apply Z.eqb_neq in Hdiff. rewrite Hdiff. cbn.
    destruct (timeout st =? INVALID_TIMEOUT)%nat; cbn;
      destruct (env_SLPReg _ _) as [err errcodes]; cbn;
      flags.
  - destruct (env_SLPReg _ _) as [err errcodes]; cbn;
      flags.
Qed.

Lemma DeregisterRequest_outgoing env t callback url :
  let before :=
    match m_url_map t !! url with
    | Some st => cancelling (timeout st) (trace t)
    | None => trace t
    end in
  let answer := env_SLPDereg env (EvSLPDereg (service_url url) :: before) in
  let callbackerr := deliver_errors answer.2 (env_uninitialised env before) in
  m_outgoing_queue (exec (DeregisterRequest env callback url) t)
  = m_outgoing_queue t
    ++ [SimpleActionComplete_cb callback (both_ok answer.1 callbackerr)].
Proof.
  cbn zeta. unfold cancelling, service_url. unfold_members. cbn.
  destruct (m_url_map t !! url) as [st|] eqn:Hst; cbn.
  - destruct (timeout st =? INVALID_TIMEOUT)%nat; cbn;
      destruct (env_SLPDereg _ _) as [err errcodes]; cbn;
      flags.
  - destruct (env_SLPDereg _ _) as [err errcodes]; cbn;
      flags.
Qed.

(** ** The next discovery *)

Lemma fold_left_min_minimum (leases : list (string * Z)) cap :
  fold_left (fun next (p : string * Z) => Z.min p.2 next) leases cap
  = minimum_lease (map snd leases) cap.
Proof.
  unfold minimum_lease. revert cap.
  induction leases as [|p leases IH]; intros cap; cbn; [reflexivity|].
  rewrite IH. clear IH. revert cap.
  induction leases as [|q leases IH]; intros cap; cbn; [reflexivity|].
  rewrite IH. lia.
Qed.

Lemma minimum_lease_le_cap leases cap : minimum_lease leases cap <= cap.
Proof. unfold minimum_lease. induction leases; cbn; lia. Qed.

Lemma minimum_lease_le leases cap l :
  l ∈ leases -> minimum_lease leases cap <= l.
Proof.
  unfold minimum_lease. induction leases as [|x leases IH]; cbn.
  - intros H. now apply elem_of_nil in H.
  - intros H. apply elem_of_cons in H as [->|H]; [lia|]. specialize (IH H). lia.
Qed.

Lemma DiscoveryRequest_timer env t :
  let before := cancelling (m_discovery_timeout t) (trace t) in
  let answer := env_SLPFindSrvs env (EvSLPFindSrvs SERVICE_NAME :: before) in
  let cookie :=
    deliver_reports answer.2
      {| error := env_uninitialised env before; urls := [] |} in
  let next :=
    if both_ok answer.1 (error cookie)
    then minimum_lease (map snd (urls cookie)) (to_ushort (m_refresh_time t))
    else to_ushort (m_refresh_time t) in
  let t' := exec (DiscoveryRequest env) t in
  m_discovery_timeout t' = ss_next_id (m_ss t) /\
  ss_timeouts (m_ss t')
  = <[ss_next_id (m_ss t) := (next * 1000, DiscoveryTriggered_cb)]>
      (if (m_discovery_timeout t =? INVALID_TIMEOUT)%nat
       then ss_timeouts (m_ss t)
       else delete (m_discovery_timeout t) (ss_timeouts (m_ss t))).
Proof.
  cbn zeta. rewrite <- fold_left_min_minimum.
  unfold cancelling, both_ok. unfold_members. cbn.
  destruct (m_discovery_timeout t =? INVALID_TIMEOUT)%nat; cbn;
    destruct (env_SLPFindSrvs _ _) as [err reports]; cbn;
    repeat match goal with
    | |- context [?a =? SLP_OK] => destruct (a =? SLP_OK)
    end; cbn;
    repeat match goal with
    | |- context [sock_open ?s] => destruct (sock_open s)
    end; cbn; auto.
Qed.

(** As long as the refresh time fits an [unsigned short], the next
    discovery is due after the smallest lease found and at most after
    the refresh time, or after the refresh time when the call failed. *)
Lemma DiscoveryRequest_timer_in_range env t :
  0 <= m_refresh_time t <= 65535 ->
  let before := cancelling (m_discovery_timeout t) (trace t) in
  let answer := env_SLPFindSrvs env (EvSLPFindSrvs SERVICE_NAME :: before) in
  let cookie :=
    deliver_reports answer.2
      {| error := env_uninitialised env before; urls := [] |} in
  let next :=
    if both_ok answer.1 (error cookie)
    then minimum_lease (map snd (urls cookie)) (m_refresh_time t)
    else m_refresh_time t in
  let t' := exec (DiscoveryRequest env) t in
  ss_timeouts (m_ss t') !! m_discovery_timeout t'
  = Some (next * 1000, DiscoveryTriggered_cb).
Proof.
  intros Hrange. cbn zeta.
  destruct (DiscoveryRequest_timer env t) as [-> ->].
  rewrite lookup_insert_eq, to_ushort_small by exact Hrange. reflexivity.
Qed.

(** A completion of a discovery that is run from the queue reaches the
    discovery callback with its flag and its urls. *)
Lemma discovery_completion_delivered env aging ss cb refresh ops ok found rest :
  let t := run env aging ops (SlpThread_new ss cb refresh) in
  m_outgoing_queue t = DiscoveryActionComplete_cb ok found :: rest ->
  trace (exec (step env aging MainIteration) t)
  = EvDiscoveryCallback ok found
    :: EvOutgoingRun (DiscoveryActionComplete_cb ok found) :: trace t.
Proof.
  intros t Hqueue.
  pose proof (callback_inv_run env aging ss cb refresh ops) as Hinv.
  fold t in Hinv. clearbody t. unfold_members. rewrite Hqueue. cbn.
  destruct (m_discovery_callback t) eqn:Hcb; [reflexivity|].
  destruct (Hinv Hcb) as (_ & Hno & _). exfalso.
  apply (Hno ok found). rewrite Hqueue. apply elem_of_cons. now left.
Qed.

(** Results (A, 10) and (B, 30) with a refresh time of 60 s: the next
    discovery is due after 10 s. *)
Example discovery_delay_example :
  let t := SlpThread_new SelectServer_new (Some 1%nat) 60 in
  let t' := exec (DiscoveryRequest calm) t in
  ss_timeouts (m_ss t') !! m_discovery_timeout t'
  = Some (10 * 1000, DiscoveryTriggered_cb).
Proof. vm_compute. reflexivity. Qed.

(** ** The caller's callbacks against the completions *)

Lemma delivery_inv_new ss cb refresh :
  delivery_inv (SlpThread_new ss cb refresh).
Proof. split; reflexivity. Qed.

Lemma delivery_inv_step env aging o t :
  callback_inv t -> delivery_inv t ->
  delivery_inv (exec (step env aging o) t).
Proof.
  unfold delivery_inv, callback_inv. intros Hcb [Hrun Hfind].
  split.
  - destruct o; unfold_members; rewrite ?EmptySocket_run; unfold emptied;
      crunch; simplify_eq/=; rewrite ?Hrun; try reflexivity.
    all: destruct (Hcb eq_refl) as (_ & Hno & _); exfalso; eapply Hno;
      apply elem_of_cons; left; reflexivity.
  - intros Hnone. rewrite step_discovery_callback in Hnone.
    specialize (Hfind Hnone). destruct (Hcb Hnone) as (Hq & _ & Ht).
    destruct o; unfold_members; rewrite ?EmptySocket_run; unfold emptied;
      crunch; simplify_eq/=; try assumption; try congruence.
    all: exfalso;
      first [ apply Hq; apply elem_of_cons; left; reflexivity
            | eapply Ht; eassumption ].
Qed.

Lemma delivery_inv_run env aging ss cb refresh ops :
  delivery_inv (run env aging ops (SlpThread_new ss cb refresh)).
Proof.
  assert (forall ops,
            let t := run env aging ops (SlpThread_new ss cb refresh) in
            callback_inv t /\ delivery_inv t) as H.
  { intros ops'.
    apply (run_invariant env aging (fun t => callback_inv t /\ delivery_inv t)).
    - intros o t [Hc Hd]. split; [now apply callback_inv_step|].
      now apply delivery_inv_step.
    - split; [apply callback_inv_new|apply delivery_inv_new]. }
  apply H.
Qed.

(** ** What a pass of a drain loop does *)






(** ** A request on its way through the incoming queue *)

Lemma NewRequest_iteration_run env aging t r rest :
  m_incoming_queue t = r :: rest ->
  exec (NewRequest_iteration env aging) t
  = exec (run_request env aging r)
      (set_trace (EvIncomingRun r :: trace t) (set_m_incoming_queue rest t)).
Proof.
  intros Hq. unfold NewRequest_iteration, exec, bind, gets, modify, emit, ret.
  rewrite Hq. cbn.
  now destruct (run_request env aging r _).
Qed.

Lemma Register_queues aging t on_complete url lifetime0 :
  0 <= aging -> 2 * aging <= 65535 ->
  let forced := if lifetime0 <=? 2 * aging then 2 * aging else lifetime0 in
  let t' := exec (Register aging on_complete url lifetime0) t in
  m_incoming_queue t'
  = m_incoming_queue t ++ [RegisterRequest_cb on_complete url forced] /\
  m_outgoing_queue t' = m_outgoing_queue t /\
  m_url_map t' = m_url_map t /\
  registrations (trace t') = registrations (trace t).
Proof.
  intros Hag Hag2. unfold_members.
  rewrite (to_ushort_small (2 * aging)) by lia.
  replace (aging * 2) with (2 * aging) by lia.
  crunch; split_and!; auto.
Qed.

(** * Properties of the object *)

(** ** C1: the guarded queues *)



(** ** C2: the delay of the next discovery *)

(** C2.  The code keeps the delay in an [unsigned short] that starts as
    [m_refresh_time], an [unsigned int]: a refresh time of 65541 s
    starts it at 5.  With the results (A, 10) and (B, 30) of a
    successful SLPFindSrvs the timer is then armed for 5 s, which is
    neither the smallest lease, 10 s, nor the refresh time. *)
Theorem C2_discovery_delay_wraps :
  let t := SlpThread_new SelectServer_new (Some 1%nat) 65541 in
  let t' := exec (DiscoveryRequest calm) t in
  m_outgoing_queue t' = [DiscoveryActionComplete_cb true ["A"; "B"]] /\
  ss_timeouts (m_ss t') !! m_discovery_timeout t'
  = Some (5 * 1000, DiscoveryTriggered_cb) /\
  minimum_lease [10; 30] 65541 = 10.
Proof. vm_compute. auto. Qed.

(** ** C3: the lease of a registration *)

(** C3.  Whatever lifetime [RegisterRequest] is run with, the lease it
    works with is that lifetime raised to [MIN_LIFETIME] = 5 and then,
    when SLPGetRefreshInterval answers a non-zero minimum, raised to
    that minimum: this is the lifetime of the entry of the url when the
    request is done, and the lifetime of the one call of SLPReg the
    request may make; a lifetime of 1 with a minimum of 0 gives exactly
    5.  The lifetime [RegisterRequest] is run with is not the one the
    caller gave to [Register]: provided the aging time is not negative
    and twice it fits an [unsigned short], [Register] queues twice the
    aging time in place of any lifetime up to that, so the lease
    granted to a request made through [Register] is the forced
    lifetime clamped as above, at least twice the aging time, and for a
    request of 1 with a minimum of 0 it is the larger of twice the
    aging time and 5.  In every run, no entry holds and no call of
    SLPReg is given a lifetime under 5. *)
Theorem C3_register_lease_forced_then_clamped env aging :
  (forall t callback url lifetime0,
     let min_lifetime := refresh_interval_after env (trace t) in
     let granted := clamped_lease lifetime0 MIN_LIFETIME min_lifetime in
     let t' := exec (RegisterRequest env aging callback url lifetime0) t in
     MIN_LIFETIME <= granted /\
     (min_lifetime <> 0 -> min_lifetime <= granted) /\
     (exists st, m_url_map t' !! url = Some st /\ lifetime st = granted) /\
     (registrations (trace t') = registrations (trace t) \/
      registrations (trace t')
      = registrations (trace t) ++ [(service_url url, granted)]) /\
     (lifetime0 = 1 -> min_lifetime = 0 -> granted = 5)) /\
  (forall t callback url lifetime0,
     0 <= aging -> 2 * aging <= 65535 ->
     0 <= lifetime0 <= 65535 ->
     m_incoming_queue t = [] ->
     let forced := if lifetime0 <=? 2 * aging then 2 * aging else lifetime0 in
     let r := RegisterRequest_cb callback url forced in
     let t1 := exec (Register aging callback url lifetime0) t in
     let min_lifetime :=
       refresh_interval_after env (EvIncomingRun r :: trace t1) in
     let granted := clamped_lease forced MIN_LIFETIME min_lifetime in
     let t2 := exec (step env aging WorkerIteration) t1 in
     m_incoming_queue t1 = [r] /\
     (exists st, m_url_map t2 !! url = Some st /\ lifetime st = granted) /\
     (registrations (trace t2) = registrations (trace t) \/
      registrations (trace t2)
      = registrations (trace t) ++ [(service_url url, granted)]) /\
     MIN_LIFETIME <= granted /\
     2 * aging <= granted /\
     lifetime0 <= granted /\
     (min_lifetime <> 0 -> min_lifetime <= granted) /\
     (lifetime0 = 1 -> min_lifetime = 0 -> granted = Z.max (2 * aging) 5)) /\
  (forall ss cb refresh ops,
     let t := run env aging ops (SlpThread_new ss cb refresh) in
     (forall url st, m_url_map t !! url = Some st -> 5 <= lifetime st) /\
     (forall srvurl l, (srvurl, l) ∈ registrations (trace t) -> 5 <= l)).
Proof.
  assert (forall requested m,
            m <> 0 -> m <= clamped_lease requested MIN_LIFETIME m) as Hmin.
  { intros requested m Hm. unfold clamped_lease.
    destruct (m =? 0) eqn:E; [apply Z.eqb_eq in E; lia|lia]. }
  assert (forall requested m,
            requested <= clamped_lease requested MIN_LIFETIME m) as Hreq.
  { intros requested m. unfold clamped_lease. destruct (m =? 0); lia. }
  split_and!.
  - intros t callback url lifetime0 min_lifetime granted t'.
    destruct (RegisterRequest_lease env aging t callback url lifetime0)
      as [Hentry Hreg].
    split_and!; [apply clamped_lease_floor|now apply Hmin|exact Hentry
                |exact Hreg|].
    intros -> Hm. subst granted. rewrite Hm. reflexivity.
  - intros t callback url lifetime0 Hag Hag2 Hl Hempty forced r t1
      min_lifetime granted t2.
    destruct (Register_queues aging t callback url lifetime0 Hag Hag2)
      as (Hq & _ & Hmap & Hregs).
    fold forced in Hq. fold r in Hq. fold t1 in Hq, Hmap, Hregs.
    rewrite Hempty in Hq. cbn in Hq.
    subst t2. rewrite step_WorkerIteration.
    rewrite (NewRequest_iteration_run env aging t1 r [] Hq).
    destruct (RegisterRequest_lease env aging
                (set_trace (EvIncomingRun r :: trace t1)
                   (set_m_incoming_queue [] t1)) callback url forced)
      as [Hentry Hreg].
    cbn [trace set_trace registrations] in Hentry, Hreg.
    fold min_lifetime in Hentry, Hreg. fold granted in Hentry, Hreg.
    rewrite Hregs in Hreg.
    assert (2 * aging <= forced /\ lifetime0 <= forced) as [Hf1 Hf2].
    { subst forced. destruct (lifetime0 <=? 2 * aging) eqn:E; lia. }
    pose proof (Hreq forced min_lifetime) as Hge. fold granted in Hge.
    split_and!; [exact Hq|exact Hentry|exact Hreg|apply clamped_lease_floor
                |lia|lia|now apply Hmin|].
    intros -> Hm. subst granted forced. rewrite Hm.
    unfold clamped_lease, MIN_LIFETIME. cbn [Z.eqb].
    destruct (1 <=? 2 * aging) eqn:E; lia.
  - intros ss cb refresh ops. apply (floor_inv_run env aging ss cb refresh ops).
Qed.

Lemma C3_register_lease_forced_then_clamped_witness :
  let t := SlpThread_new SelectServer_new None 60 in
  0 <= 15 /\ 2 * 15 <= 65535 /\ 0 <= 1 <= 65535 /\ m_incoming_queue t = [] /\
  exists st,
    m_url_map (exec (step calm 15 WorkerIteration)
                 (exec (Register 15 1%nat "x" 1) t)) !! "x" = Some st /\
    lifetime st = 30.
Proof.
  split; [lia|]. split; [lia|]. split; [lia|]. split; [reflexivity|].
  exact (proj1 (proj2
    (proj1 (proj2 (C3_register_lease_forced_then_clamped calm 15))
       (SlpThread_new SelectServer_new None 60) 1%nat "x" 1
       ltac:(lia) ltac:(lia) ltac:(lia) eq_refl))).
Defined.

(** The claim's own example, made through [Register] with an aging time
    of 15 s: the service advertises no minimum, the floor is 5, and the
    lease of the request of 1 is 30, in the entry and at SLPReg. *)
Lemma C3_register_lease_clamped_counterexample :
  let t := run calm 15 [CallRegister 1%nat "x" 1; WorkerIteration]
             (SlpThread_new SelectServer_new None 60) in
  (forall tr, refresh_interval_after calm tr = 0) /\
  clamped_lease 1 MIN_LIFETIME 0 = 5 /\
  m_url_map t !! "x" = Some {| lifetime := 30; timeout := 1%nat |} /\
  registrations (trace t) = [(service_url "x", 30)] /\
  30 <> clamped_lease 1 MIN_LIFETIME 0.
Proof.
  split_and!; [reflexivity|reflexivity|vm_compute; reflexivity
              |vm_compute; reflexivity|vm_compute; discriminate].
Qed.

(** ** C4: registering again with the same lease *)

(** C4.  When [RegisterRequest] finds an entry for the url whose
    lifetime is the clamped lifetime of the request, it asks for the
    refresh interval and nothing else: SLPReg is not called, the map of
    entries and the timers of the select server stay as they are, and a
    completion carrying [true] for the caller's callback is queued,
    which hands [true] to that callback when it is run. *)
Theorem C4_same_lease_short_circuit env aging t callback url lifetime0 st :
  m_url_map t !! url = Some st ->
  lifetime st
  = clamped_lease lifetime0 MIN_LIFETIME (refresh_interval_after env (trace t)) ->
  let t' := exec (RegisterRequest env aging callback url lifetime0) t in
  registrations (trace t') = registrations (trace t) /\
  trace t'
  = sent outgoing_socket t
    ++ EvOutgoingPush (SimpleActionComplete_cb callback true)
    :: EvSLPGetRefreshInterval :: trace t /\
  m_url_map t' = m_url_map t /\
  m_ss t' = m_ss t /\
  m_outgoing_queue t'
  = m_outgoing_queue t ++ [SimpleActionComplete_cb callback true] /\
  (forall t2,
     trace (exec (run_completion (SimpleActionComplete_cb callback true)) t2)
     = EvRegistrationCallback callback true :: trace t2).
Proof.
  intros Hst Hlife. rewrite <- clamped_lease_code in Hlife.
  unfold refresh_interval_after in Hlife.
  unfold_members. cbn. rewrite Hst. cbn. rewrite Hlife, Z.eqb_refl.
  unfold sent. cbn. destruct (sock_open (m_outgoing_socket t)); cbn; auto 10.
Qed.

Lemma C4_same_lease_short_circuit_witness :
  let t := run calm 15 [CallRegister 1%nat "x" 40; WorkerIteration]
             (SlpThread_new SelectServer_new None 60) in
  m_url_map t !! "x" = Some {| lifetime := 40; timeout := 1%nat |} /\
  40 = clamped_lease 40 MIN_LIFETIME (refresh_interval_after calm (trace t)) /\
  registrations (trace (exec (RegisterRequest calm 15 2%nat "x" 40) t))
  = registrations (trace t).
Proof.
  split; [vm_compute; reflexivity|]. split; [vm_compute; reflexivity|].
  exact (proj1 (C4_same_lease_short_circuit calm 15
    (run calm 15 [CallRegister 1%nat "x" 40; WorkerIteration]
       (SlpThread_new SelectServer_new None 60))
    2%nat "x" 40 {| lifetime := 40; timeout := 1%nat |}
    ltac:(vm_compute; reflexivity) ltac:(vm_compute; reflexivity))).
Defined.
(** ** C5: deregistration *)

(** C5.  When the worker runs a [DeregisterRequest] for a url, in any
    state a run can reach: afterwards the url has no entry and no
    renewal timer for it is pending.  If there was an entry, its
    renewal timer was pending, and it is cancelled before SLPDereg is
    called; if there was none, SLPDereg is called all the same.  Right
    after, [RegistrationTriggered] for the url changes nothing, and so
    does the firing of the handle the entry held. *)
Theorem C5_deregister_cancels env aging ss cb refresh ops callback url rest :
  let t := run env aging ops (SlpThread_new ss cb refresh) in
  m_incoming_queue t = DeregisterRequest_cb callback url :: rest ->
  let t' := exec (step env aging WorkerIteration) t in
  let request := EvIncomingRun (DeregisterRequest_cb callback url) in
  m_url_map t' !! url = None /\
  (forall id ms,
     ss_timeouts (m_ss t') !! id <> Some (ms, RegistrationTriggered_cb url)) /\
  (forall st, m_url_map t !! url = Some st ->
     (exists ms, ss_timeouts (m_ss t) !! timeout st
                 = Some (ms, RegistrationTriggered_cb url)) /\
     ss_timeouts (m_ss t') = delete (timeout st) (ss_timeouts (m_ss t)) /\
     exists ok,
       trace t'
       = sent outgoing_socket t
         ++ EvOutgoingPush (SimpleActionComplete_cb callback ok)
         :: EvSLPDereg (service_url url)
         :: EvRemoveTimeout (timeout st) :: request :: trace t) /\
  (m_url_map t !! url = None ->
     ss_timeouts (m_ss t') = ss_timeouts (m_ss t) /\
     exists ok,
       trace t'
       = sent outgoing_socket t
         ++ EvOutgoingPush (SimpleActionComplete_cb callback ok)
         :: EvSLPDereg (service_url url) :: request :: trace t) /\
  RegistrationTriggered env aging url t' = (tt, t') /\
  (forall st, m_url_map t !! url = Some st ->
     timeout_fires env aging (timeout st) t' = (tt, t')).
Proof.
  intros t Hqueue t' request. subst t' request.
  destruct (timer_inv_run env aging ss cb refresh ops)
    as (_ & H1 & H2 & _ & H4 & _).
  fold t in H1, H2, H4. clearbody t.
  assert (forall st, m_url_map t !! url = Some st ->
            timeout st <> INVALID_TIMEOUT) as Hvalid.
  { intros st Hst. destruct (H4 _ _ Hst) as [ms Hms].
    apply H1 in Hms. unfold INVALID_TIMEOUT. lia. }
  unfold_members. rewrite Hqueue. cbn.
  destruct (m_url_map t !! url) as [st|] eqn:Hst; cbn.
  - specialize (Hvalid st eq_refl). apply Nat.eqb_neq in Hvalid.
    rewrite Hvalid. cbn.
    destruct (env_SLPDereg _ _) as [err errcodes]. cbn.
    unfold sent. cbn.
    destruct (sock_open (m_outgoing_socket t)); cbn;
      rewrite ?lookup_delete_eq; cbn;
      (split_and!; [reflexivity| |intros ? [= <-]|discriminate|reflexivity
                    |intros ? [= <-]; rewrite lookup_delete_eq; reflexivity]);
      try (split_and!; eauto; fail);
      intros id ms Hid; apply lookup_delete_Some in Hid as [Hne Hid];
      destruct (H2 _ _ _ Hid) as (st' & Hst' & Hid'); congruence.
  - destruct (env_SLPDereg _ _) as [err errcodes]. cbn.
    unfold sent. cbn.
    destruct (sock_open (m_outgoing_socket t)); cbn; rewrite ?Hst; cbn;
      (split_and!; [reflexivity| |discriminate|eauto|reflexivity|discriminate]);
      intros id ms Hid; destruct (H2 _ _ _ Hid) as (st' & Hst' & Hid');
      congruence.
Qed.

Lemma C5_deregister_cancels_witness :
  let t := run calm 15
             [CallRegister 1%nat "x" 40; WorkerIteration; CallDeRegister 2%nat "x"]
             (SlpThread_new SelectServer_new None 60) in
  m_incoming_queue t = [DeregisterRequest_cb 2%nat "x"] /\
  m_url_map (exec (step calm 15 WorkerIteration) t) !! "x" = None.
Proof.
  split; [vm_compute; reflexivity|].
  exact (proj1 (C5_deregister_cancels calm 15 SelectServer_new None 60
    [CallRegister 1%nat "x" 40; WorkerIteration; CallDeRegister 2%nat "x"]
    2%nat "x" [] ltac:(vm_compute; reflexivity))).
Defined.
(** ** C6: the renewal timer *)

(** C6.  Provided the aging time is not negative and twice it fits an
    [unsigned short]: a step of any run calls SLPReg at most once, and
    when it has called it for a url with a lifetime, whatever the
    library answered, the entry of the url holds that lifetime and the
    handle of a pending timer that runs [RegistrationTriggered] for the
    url after (lifetime - aging time - 1) seconds; no other timer for
    the url is pending, and the delay is not negative and shorter than
    the lifetime. *)
Theorem C6_renewal_timer env aging ss cb refresh ops o :
  0 <= aging -> 2 * aging <= 65535 ->
  let t := run env aging ops (SlpThread_new ss cb refresh) in
  let t' := exec (step env aging o) t in
  (registrations (trace t') = registrations (trace t) \/
   exists srvurl granted,
     registrations (trace t') = registrations (trace t) ++ [(srvurl, granted)]) /\
  (forall srvurl granted,
     registrations (trace t') = registrations (trace t) ++ [(srvurl, granted)] ->
     exists url st,
       srvurl = service_url url /\
       m_url_map t' !! url = Some st /\
       lifetime st = granted /\
       ss_timeouts (m_ss t') !! timeout st
       = Some ((granted - aging - 1) * 1000, RegistrationTriggered_cb url) /\
       (forall id ms,
          ss_timeouts (m_ss t') !! id = Some (ms, RegistrationTriggered_cb url) ->
          id = timeout st) /\
       0 <= (granted - aging - 1) * 1000 < granted * 1000).
Proof.
  intros Hag Hag2 t t'.
  assert (t' = run env aging (ops ++ [o]) (SlpThread_new ss cb refresh)) as Hrun
    by (now rewrite run_snoc).
  pose proof (timer_inv_run env aging ss cb refresh (ops ++ [o]))
    as (_ & _ & Ht2 & _).
  pose proof (lease_inv_run env aging ss cb refresh (ops ++ [o]) Hag Hag2)
    as (_ & _ & Hlease).
  pose proof (floor_inv_run env aging ss cb refresh (ops ++ [o])) as (_ & Hfloor).
  rewrite <- Hrun in Ht2, Hlease, Hfloor. clear Hrun.
  destruct (step_registration env aging o t) as [Hsame|(url & st & Hreg & Hst & Htimer)];
    fold t' in Hsame || fold t' in Hreg, Hst, Htimer.
  - split; [now left|]. intros srvurl granted Hreg. rewrite Hsame in Hreg.
    now apply app_singleton_self in Hreg.
  - split; [right; eauto|]. intros srvurl granted Hreg'.
    rewrite Hreg in Hreg'. apply app_inv_head in Hreg'.
    injection Hreg' as <- <-.
    assert ((service_url url, lifetime st) ∈ registrations (trace t')) as Hin.
    { rewrite Hreg. apply elem_of_app. right. apply list_elem_of_singleton.
      reflexivity. }
    specialize (Hlease _ _ Hin). specialize (Hfloor _ _ Hin).
    unfold MIN_LIFETIME in Hfloor.
    rewrite to_ushort_small in Htimer by lia.
    exists url, st. split_and!; auto; try lia.
    intros id ms Hid. destruct (Ht2 _ _ _ Hid) as (st' & Hst' & <-). congruence.
Qed.

Lemma C6_renewal_timer_witness :
  let t := run calm 15 [CallRegister 1%nat "x" 40]
             (SlpThread_new SelectServer_new None 60) in
  let t' := exec (step calm 15 WorkerIteration) t in
  0 <= 15 /\ 2 * 15 <= 65535 /\
  exists url st,
    service_url "x" = service_url url /\
    m_url_map t' !! url = Some st /\
    lifetime st = 40 /\
    ss_timeouts (m_ss t') !! timeout st
    = Some ((40 - 15 - 1) * 1000, RegistrationTriggered_cb url) /\
    (forall id ms,
       ss_timeouts (m_ss t') !! id = Some (ms, RegistrationTriggered_cb url) ->
       id = timeout st) /\
    0 <= (40 - 15 - 1) * 1000 < 40 * 1000.
Proof.
  split; [lia|]. split; [lia|].
  exact (proj2 (C6_renewal_timer calm 15 SelectServer_new None 60
    [CallRegister 1%nat "x" 40] WorkerIteration ltac:(lia) ltac:(lia))
    (service_url "x") 40 ltac:(vm_compute; reflexivity)).
Defined.

(** ** C7: a failed discovery *)

(** C7.  When SLPFindSrvs fails, [false] is queued for the discovery
    callback and a timer is armed, but with a refresh time of 70000 s
    its delay is 4464 s (70000 modulo 65536), not the refresh time. *)
Theorem C7_fallback_delay_wraps :
  let t := SlpThread_new SelectServer_new (Some 1%nat) 70000 in
  let t' := exec (DiscoveryRequest stormy) t in
  m_outgoing_queue t' = [DiscoveryActionComplete_cb false []] /\
  ss_timeouts (m_ss t') !! m_discovery_timeout t'
  = Some (4464 * 1000, DiscoveryTriggered_cb) /\
  4464 <> 70000.
Proof. vm_compute. split_and!; auto. discriminate. Qed.

(** ** C8: the reported flag *)

(** C8.  The flag an operation reports is [both_ok] of the return code
    of its SLP call and of what the callback of that call has left in
    its cookie when the call returns.  So the flag is [false] whenever
    the return code is not SLP_OK; and when the callback has been
    called at all, the flag is [true] exactly when the return code is
    SLP_OK and the code given to the last call of the callback is
    SLP_OK (for a discovery: SLP_OK or SLP_LAST_CALL), because every
    call of the callback overwrites what the one before has stored.
    This holds for the completion queued by [DiscoveryRequest], for the
    result of [PerformRegistration], for the completion queued by
    [RegisterRequest] whenever it registers, and for the completion
    queued by [DeregisterRequest]; running a completion hands the flag
    to the caller's callback unchanged. *)
Theorem C8_reported_flag_last_signal env aging t :
  (let before := cancelling (m_discovery_timeout t) (trace t) in
   let answer := env_SLPFindSrvs env (EvSLPFindSrvs SERVICE_NAME :: before) in
   let cookie :=
     deliver_reports answer.2
       {| error := env_uninitialised env before; urls := [] |} in
   let ok := both_ok answer.1 (error cookie) in
   m_outgoing_queue (exec (DiscoveryRequest env) t)
   = m_outgoing_queue t
     ++ [DiscoveryActionComplete_cb ok (map fst (urls cookie))] /\
   (answer.1 <> SLP_OK -> ok = false) /\
   (forall reports r,
      answer.2 = reports ++ [r] ->
      ok = true <->
      answer.1 = SLP_OK /\
      (rep_errcode r = SLP_OK \/ rep_errcode r = SLP_LAST_CALL))) /\
  (forall url lifetime0,
     let answer :=
       env_SLPReg env (EvSLPReg (service_url url) lifetime0 :: trace t) in
     let callbackerr :=
       deliver_errors answer.2 (env_uninitialised env (trace t)) in
     let ok := both_ok answer.1 callbackerr in
     eval (PerformRegistration env aging url lifetime0) t = ok /\
     (answer.1 <> SLP_OK -> ok = false) /\
     (forall errcodes errcode,
        answer.2 = errcodes ++ [errcode] ->
        ok = true <-> answer.1 = SLP_OK /\ errcode = SLP_OK)) /\
  (forall callback url lifetime0,
     let granted := clamped_lease lifetime0 MIN_LIFETIME
                      (refresh_interval_after env (trace t)) in
     let asked := EvSLPGetRefreshInterval :: trace t in
     let before :=
       match m_url_map t !! url with
       | Some st => cancelling (timeout st) asked
       | None => asked
       end in
     let answer :=
       env_SLPReg env (EvSLPReg (service_url url) granted :: before) in
     let callbackerr :=
       deliver_errors answer.2 (env_uninitialised env before) in
     let ok := both_ok answer.1 callbackerr in
     (forall st, m_url_map t !! url = Some st -> lifetime st <> granted) ->
     m_outgoing_queue (exec (RegisterRequest env aging callback url lifetime0) t)
     = m_outgoing_queue t ++ [SimpleActionComplete_cb callback ok] /\
     (answer.1 <> SLP_OK -> ok = false) /\
     (forall errcodes errcode,
        answer.2 = errcodes ++ [errcode] ->
        ok = true <-> answer.1 = SLP_OK /\ errcode = SLP_OK)) /\
  (forall callback url,
     let before :=
       match m_url_map t !! url with
       | Some st => cancelling (timeout st) (trace t)
       | None => trace t
       end in
     let answer := env_SLPDereg env (EvSLPDereg (service_url url) :: before) in
     let callbackerr :=
       deliver_errors answer.2 (env_uninitialised env before) in
     let ok := both_ok answer.1 callbackerr in
     m_outgoing_queue (exec (DeregisterRequest env callback url) t)
     = m_outgoing_queue t ++ [SimpleActionComplete_cb callback ok] /\
     (answer.1 <> SLP_OK -> ok = false) /\
     (forall errcodes errcode,
        answer.2 = errcodes ++ [errcode] ->
        ok = true <-> answer.1 = SLP_OK /\ errcode = SLP_OK)) /\
  (forall callback ok,
     trace (exec (run_completion (SimpleActionComplete_cb callback ok)) t)
     = EvRegistrationCallback callback ok :: trace t) /\
  (forall ok found,
     is_Some (m_discovery_callback t) ->
     trace (exec (run_completion (DiscoveryActionComplete_cb ok found)) t)
     = EvDiscoveryCallback ok found :: trace t).
Proof.
  assert (forall err signal, err <> SLP_OK -> both_ok err signal = false)
    as Hret.
  { intros err signal Herr. unfold both_ok.
    destruct (err =? SLP_OK) eqn:E; [apply Z.eqb_eq in E; contradiction|].
    reflexivity. }
  assert (forall err errcodes errcode cookie,
            both_ok err (deliver_errors (errcodes ++ [errcode]) cookie) = true
            <-> err = SLP_OK /\ errcode = SLP_OK) as Hlast.
  { intros err errcodes errcode cookie.
    rewrite deliver_errors_last. apply both_ok_true. }
  split_and!.
  - intros before answer cookie ok. split_and!.
    + apply DiscoveryRequest_outgoing.
    + apply Hret.
    + intros reports r Hans. subst ok cookie. rewrite Hans.
      rewrite both_ok_true, deliver_reports_last.
      destruct (rep_errcode r =? SLP_OK) eqn:E1;
        destruct (rep_errcode r =? SLP_LAST_CALL) eqn:E2; cbn;
        rewrite ?Z.eqb_eq, ?Z.eqb_neq in *; intuition congruence.
  - intros url lifetime0 answer callbackerr ok. split_and!.
    + apply PerformRegistration_result.
    + apply Hret.
    + intros errcodes errcode Hans. subst ok callbackerr. rewrite Hans.
      apply Hlast.
  - intros callback url lifetime0 granted asked before answer callbackerr ok
      Hdiff.
    split_and!.
    + now apply RegisterRequest_outgoing.
    + apply Hret.
    + intros errcodes errcode Hans. subst ok callbackerr. rewrite Hans.
      apply Hlast.
  - intros callback url before answer callbackerr ok. split_and!.
    + apply DeregisterRequest_outgoing.
    + apply Hret.
    + intros errcodes errcode Hans. subst ok callbackerr. rewrite Hans.
      apply Hlast.
  - reflexivity.
  - intros ok found [cb Hcb]. unfold_members. cbn. now rewrite Hcb.
Qed.

Lemma C8_reported_flag_last_signal_witness :
  let t := SlpThread_new SelectServer_new (Some 1%nat) 60 in
  (env_SLPDereg stormy (EvSLPDereg (service_url "x") :: trace t)).1 <> SLP_OK /\
  m_outgoing_queue (exec (DeregisterRequest stormy 3%nat "x") t)
  = [SimpleActionComplete_cb 3%nat false].
Proof.
  split; [vm_compute; discriminate|].
  exact (proj1 (proj1 (proj2 (proj2 (proj2
    (C8_reported_flag_last_signal stormy 15
       (SlpThread_new SelectServer_new (Some 1%nat) 60)))))
    3%nat "x")).
Defined.

(** SLPFindSrvs returns SLP_OK and reports the url A, then the error
    SLP_NETWORK_TIMED_OUT (-19), then SLP_LAST_CALL: an error has come
    through the callback, and the discovery reports [true]. *)
Lemma C8_reported_flag_both_channels_counterexample :
  let env :=
    reporting [found_report "A" 10; error_report; last_call_report] in
  let t := SlpThread_new SelectServer_new (Some 1%nat) 60 in
  let answer := env_SLPFindSrvs env (EvSLPFindSrvs SERVICE_NAME :: trace t) in
  answer.1 = SLP_OK /\
  (exists r, r ∈ answer.2 /\
     rep_errcode r <> SLP_OK /\ rep_errcode r <> SLP_LAST_CALL) /\
  m_outgoing_queue (exec (DiscoveryRequest env) t)
  = [DiscoveryActionComplete_cb true ["A"]] /\
  trace (exec (run_completion (DiscoveryActionComplete_cb true ["A"])) t)
  = [EvDiscoveryCallback true ["A"]].
Proof.
  split_and!; [reflexivity| |vm_compute; reflexivity|reflexivity].
  exists error_report. split_and!; [|discriminate|discriminate].
  apply elem_of_cons. right. apply elem_of_cons. now left.
Qed.

(** ** C9: Init *)

(** C9.  In any state a run can reach: [Init] of an object that is not
    initialised succeeds exactly when both pipes can be had and SLPOpen
    answers SLP_OK.  When it fails, [m_init_ok] is still unset, both
    sockets are closed, no SLP handle is open and neither select server
    has been touched: a second step that fails closes the incoming
    socket, a third that fails closes both.  When it succeeds all three
    are held and [m_init_ok] is set.  [Init] of an initialised object
    returns [true] and does nothing. *)
Theorem C9_init_all_or_nothing env aging ss cb refresh ops :
  let t := run env aging ops (SlpThread_new ss cb refresh) in
  let t' := exec (Init env) t in
  let tr1 := EvSocketInit incoming_socket :: trace t in
  let tr2 := EvSocketInit outgoing_socket :: tr1 in
  let tr3 := EvSLPOpen :: tr2 in
  (m_init_ok t = false ->
   eval (Init env) t
   = env_pipe env tr1 && env_pipe env tr2 && (env_SLPOpen env tr3 =? SLP_OK)) /\
  (eval (Init env) t = false ->
   m_init_ok t' = false /\
   sock_open (m_incoming_socket t') = false /\
   sock_open (m_outgoing_socket t') = false /\
   m_slp_handle t' = false /\
   m_ss t' = m_ss t /\
   m_main_ss t' = m_main_ss t) /\
  (eval (Init env) t = true ->
   m_init_ok t' = true /\
   sock_open (m_incoming_socket t') = true /\
   sock_open (m_outgoing_socket t') = true /\
   m_slp_handle t' = true) /\
  (m_init_ok t = false ->
   (env_pipe env tr1 = false -> trace t' = tr1) /\
   (env_pipe env tr1 = true -> env_pipe env tr2 = false ->
    trace t' = EvSocketClose incoming_socket :: tr2) /\
   (env_pipe env tr1 = true -> env_pipe env tr2 = true ->
    env_SLPOpen env tr3 <> SLP_OK ->
    trace t'
    = EvSocketClose outgoing_socket :: EvSocketClose incoming_socket :: tr3)) /\
  (m_init_ok t = true -> Init env t = (true, t)).
Proof.
  intros t t' tr1 tr2 tr3. subst t' tr1 tr2 tr3.
  destruct (resource_inv_run env aging ss cb refresh ops) as (Hi & Ho & Hh & Hs).
  fold t in Hi, Ho, Hh, Hs. clearbody t.
  split_and!.
  - intros Hok. rewrite Hok in *. unfold_members.
    crunch; boolprops; simplify_eq/=; try reflexivity; congruence.
  - unfold_members.
    crunch; intros; boolprops; simplify_eq/=; auto 10; congruence.
  - unfold_members.
    crunch; intros; boolprops; simplify_eq/=; auto 10; congruence.
  - intros Hok. rewrite Hok in *. unfold_members.
    crunch; split_and!; intros; boolprops; simplify_eq/=; congruence.
  - intros Hok. unfold_members. now rewrite Hok.
Qed.

Lemma C9_init_all_or_nothing_witness :
  let t := SlpThread_new SelectServer_new None 60 in
  let t' := exec (Init stormy) t in
  eval (Init stormy) t = false /\
  (m_init_ok t' = false /\
   sock_open (m_incoming_socket t') = false /\
   sock_open (m_outgoing_socket t') = false /\
   m_slp_handle t' = false /\
   m_ss t' = m_ss t /\
   m_main_ss t' = m_main_ss t).
Proof.
  split; [vm_compute; reflexivity|].
  exact (proj1 (proj2 (C9_init_all_or_nothing stormy 15 SelectServer_new None 60 []))
           ltac:(vm_compute; reflexivity)).
Defined.
(** ** C10: the lifetime forced by Register *)

(** C10.  Provided the aging time is not negative and twice it fits an
    [unsigned short]: [Register] called with a lifetime of at most
    twice the aging time queues the request with exactly twice the
    aging time, and with the lifetime given otherwise, and touches
    neither the entries nor the timers nor the SLP library.  So in
    every run each queued [RegisterRequest] carries a lifetime of at
    least twice the aging time, and for each lifetime handed to SLPReg
    (the one [PerformRegistration] computes the delay from) the
    subtraction of the aging time stays within [unsigned short] and
    the further subtraction of 1 is not negative. *)
Theorem C10_register_forces_twice_aging env aging :
  0 <= aging -> 2 * aging <= 65535 ->
  (forall t on_complete url lifetime0,
     0 <= lifetime0 <= 65535 ->
     let t' := exec (Register aging on_complete url lifetime0) t in
     let forced := if lifetime0 <=? 2 * aging then 2 * aging else lifetime0 in
     m_incoming_queue t'
     = m_incoming_queue t ++ [RegisterRequest_cb on_complete url forced] /\
     2 * aging <= forced /\
     (lifetime0 <= 2 * aging -> forced = 2 * aging) /\
     m_url_map t' = m_url_map t /\
     m_ss t' = m_ss t /\
     registrations (trace t') = registrations (trace t)) /\
  (forall ss cb refresh ops,
     let t := run env aging ops (SlpThread_new ss cb refresh) in
     (forall callback url l,
        RegisterRequest_cb callback url l ∈ m_incoming_queue t ->
        2 * aging <= l <= 65535) /\
     (forall srvurl l, (srvurl, l) ∈ registrations (trace t) ->
        2 * aging <= l /\
        to_ushort (l - aging) = l - aging /\
        0 <= l - aging - 1)).
Proof.
  intros Hag Hag2. split.
  - intros t on_complete url lifetime0 Hl.
    unfold_members. rewrite (to_ushort_small (2 * aging)) by lia.
    replace (aging * 2) with (2 * aging) by lia.
    crunch; boolprops; split_and!; auto; lia.
  - intros ss cb refresh ops t.
    destruct (lease_inv_run env aging ss cb refresh ops Hag Hag2)
      as (Hq & _ & Hr).
    destruct (floor_inv_run env aging ss cb refresh ops) as (_ & Hf).
    fold t in Hq, Hr, Hf. split; [exact Hq|].
    intros srvurl l Hin. specialize (Hr _ _ Hin). specialize (Hf _ _ Hin).
    unfold MIN_LIFETIME in Hf.
    split_and!; [lia| |lia]. apply to_ushort_small. lia.
Qed.

Lemma C10_register_forces_twice_aging_witness :
  let t := SlpThread_new SelectServer_new None 60 in
  0 <= 15 /\ 2 * 15 <= 65535 /\ 0 <= 1 <= 65535 /\
  m_incoming_queue (exec (Register 15 1%nat "x" 1) t)
  = [RegisterRequest_cb 1%nat "x" 30].
Proof.
  split; [lia|]. split; [lia|]. split; [lia|].
  exact (proj1 (proj1 (C10_register_forces_twice_aging calm 15
                         ltac:(lia) ltac:(lia))
                  (SlpThread_new SelectServer_new None 60) 1%nat "x" 1
                  ltac:(lia))).
Defined.

(** * More about the resolver thread *)

(** ** Timers and entries *)

Lemma delay_inv_new aging ss cb refresh :
  delay_inv aging (SlpThread_new ss cb refresh).
Proof. intros url st H. cbn in H. now rewrite lookup_empty in H. Qed.

Ltac use_delay_inv Hd H1 :=
  repeat match goal with
  | H : m_url_map ?t !! ?url = Some ?st |- _ =>
      lazymatch goal with
      | _ : ss_timeouts (m_ss t) !! timeout st
            = Some (_, RegistrationTriggered_cb url) |- _ => fail
      | _ => pose proof (Hd _ _ H)
      end
  end;
  repeat match goal with
  | H : ss_timeouts (m_ss ?t) !! ?id = Some (?ms, ?cb) |- _ =>
      lazymatch goal with
      | _ : (0 < id < ss_next_id (m_ss t))%nat |- _ => fail
      | _ => pose proof (H1 _ _ _ H)
      end
  end.

Lemma delay_inv_step env aging o t :
  timer_inv t -> delay_inv aging t ->
  delay_inv aging (exec (step env aging o) t).
Proof.
  unfold delay_inv. intros (H0 & H1 & H2 & H3 & H4 & H5) Hd.
  destruct o; unfold_members; rewrite ?EmptySocket_run; unfold emptied;
    crunch; intros url' st' Hl;
    map_cases; boolprops; unfold INVALID_TIMEOUT in *;
    use_delay_inv Hd H1; simplify_eq/=; eauto;
    try (map_goal_cases; cbn; eauto; try lia; try congruence; finish_lookup;
         fail);
    try (destruct H5 as [H5|[ms5 H5]]; [lia|];
         map_goal_cases; cbn; eauto; try lia; try congruence; finish_lookup;
         fail).
Qed.

Lemma timer_delay_inv_run env aging ss cb refresh ops :
  let t := run env aging ops (SlpThread_new ss cb refresh) in
  timer_inv t /\ delay_inv aging t.
Proof.
  apply (run_invariant env aging (fun t => timer_inv t /\ delay_inv aging t)).
  - intros o t [Ht Hd]. split; [now apply timer_inv_step|].
    now apply delay_inv_step.
  - split; [apply timer_inv_new|apply delay_inv_new].
Qed.

(** X1.  In every state a run can reach, each entry of [m_url_map]
    holds a valid handle, and the timer of that handle is pending, runs
    [RegistrationTriggered] for the url of the entry and was armed for
    (lifetime - aging time - 1) seconds (computed in [unsigned short]);
    every pending renewal timer is the one its url's entry holds, so a
    url without an entry has none and a url with an entry has exactly
    one; at most one discovery timer is pending; and no pending timer
    has the handle [INVALID_TIMEOUT]. *)
Theorem X1_timers_follow_entries env aging ss cb refresh ops :
  let t := run env aging ops (SlpThread_new ss cb refresh) in
  (forall url st, m_url_map t !! url = Some st ->
     timeout st <> INVALID_TIMEOUT /\
     ss_timeouts (m_ss t) !! timeout st
     = Some ((to_ushort (lifetime st - aging) - 1) * 1000,
             RegistrationTriggered_cb url)) /\
  (forall id ms url,
     ss_timeouts (m_ss t) !! id = Some (ms, RegistrationTriggered_cb url) ->
     exists st, m_url_map t !! url = Some st /\ timeout st = id) /\
  (forall id1 ms1 id2 ms2,
     ss_timeouts (m_ss t) !! id1 = Some (ms1, DiscoveryTriggered_cb) ->
     ss_timeouts (m_ss t) !! id2 = Some (ms2, DiscoveryTriggered_cb) ->
     id1 = id2) /\
  (forall id ms callback,
     ss_timeouts (m_ss t) !! id = Some (ms, callback) ->
     id <> INVALID_TIMEOUT).
Proof.
  intros t.
  destruct (timer_delay_inv_run env aging ss cb refresh ops)
    as [(_ & H1 & H2 & H3 & _ & _) Hd].
  fold t in H1, H2, H3, Hd. unfold INVALID_TIMEOUT. split_and!.
  - intros url st Hst. specialize (Hd _ _ Hst). split; [|exact Hd].
    apply H1 in Hd. lia.
  - exact H2.
  - intros id1 ms1 id2 ms2 Hid1 Hid2.
    apply H3 in Hid1, Hid2. congruence.
  - intros id ms callback Hid. apply H1 in Hid. lia.
Qed.

(** ** The caller's callbacks *)

(** X2.  In every run the caller's callbacks that have been run are, in
    order and with the same arguments, those of the completions that
    [RequestComplete] has taken from the outgoing queue: no callback is
    run by a request, by a timer or by a public call, none is run
    twice, and each is one the worker has queued before. *)
Theorem X2_callbacks_run_by_completions env aging ss cb refresh ops :
  let t := run env aging ops (SlpThread_new ss cb refresh) in
  invoked (trace t) = outgoing_run (trace t) /\
  outgoing_pushed (trace t) = invoked (trace t) ++ m_outgoing_queue t.
Proof.
  intros t.
  destruct (delivery_inv_run env aging ss cb refresh ops) as [Hrun _].
  fold t in Hrun. split; [exact Hrun|]. rewrite Hrun.
  pose proof (queue_inv_run env aging ss cb refresh ops) as Hq.
  fold t in Hq. apply replay_pushed_run in Hq. apply Hq.
Qed.

(** X3.  [Discover] on an object without a discovery callback returns
    [false] and does nothing; with one it returns [true] and queues one
    [DiscoveryRequest].  An object constructed without a discovery
    callback therefore never calls SLPFindSrvs, never has a discovery
    timer pending and never has a discovery completion in its outgoing
    queue, whatever is done with it. *)
Theorem X3_discover_needs_callback env aging :
  (forall t, m_discovery_callback t = None -> Discover t = (false, t)) /\
  (forall t, is_Some (m_discovery_callback t) ->
     eval Discover t = true /\
     m_incoming_queue (exec Discover t)
     = m_incoming_queue t ++ [DiscoveryRequest_cb]) /\
  (forall ss refresh ops,
     let t := run env aging ops (SlpThread_new ss None refresh) in
     finds (trace t) = 0%nat /\
     m_discovery_timeout t = INVALID_TIMEOUT /\
     (forall id ms,
        ss_timeouts (m_ss t) !! id <> Some (ms, DiscoveryTriggered_cb)) /\
     (forall ok found,
        DiscoveryActionComplete_cb ok found ∉ m_outgoing_queue t)).
Proof.
  split_and!.
  - intros t Hnone. unfold_members. now rewrite Hnone.
  - intros t [cb Hcb]. unfold_members. rewrite Hcb. cbn.
    destruct (sock_open (m_incoming_socket t)); cbn; auto.
  - intros ss refresh ops t.
    assert (m_discovery_callback t = None) as Hnone.
    { subst t. apply (run_invariant env aging
        (fun t => m_discovery_callback t = None)); [|reflexivity].
      intros o t Ht. now rewrite step_discovery_callback. }
    destruct (delivery_inv_run env aging ss None refresh ops) as [_ Hfind].
    pose proof (callback_inv_run env aging ss None refresh ops) as Hcb.
    destruct (timer_inv_run env aging ss None refresh ops)
      as (_ & _ & _ & _ & _ & H5).
    fold t in Hfind, Hcb, H5.
    destruct (Hcb Hnone) as (_ & Hno & Htimer).
    split_and!; [now apply Hfind| |exact Htimer|exact Hno].
    destruct H5 as [H5|[ms H5]]; [exact H5|]. now apply Htimer in H5.
Qed.

(** ** Requests and their completions *)

(** X4.  One pass of the loop of [NewRequest] over a queue that is not
    empty takes the request at the front and nothing else from the
    incoming queue, and pushes exactly one completion on the outgoing
    queue, which is for the caller of that request: the discovery
    callback for a [DiscoveryRequest], and the callback given with the
    request for a [RegisterRequest] or [DeregisterRequest], whether the
    SLP call succeeded, failed or was skipped. *)
Theorem X4_one_completion_per_request env aging t r rest :
  m_incoming_queue t = r :: rest ->
  let t' := exec (step env aging WorkerIteration) t in
  m_incoming_queue t' = rest /\
  exists c,
    answers r c /\
    m_outgoing_queue t' = m_outgoing_queue t ++ [c] /\
    outgoing_pushed (trace t') = outgoing_pushed (trace t) ++ [c].
Proof.
  intros Hq. unfold_members. rewrite Hq.
  destruct r; unfold_members; crunch; (split; [reflexivity|]);
    eexists; (split; [|split; reflexivity]); cbn; auto.
Qed.

Lemma X4_one_completion_per_request_witness :
  let t := run stormy 15 [CallRegister 7%nat "x" 40]
             (SlpThread_new SelectServer_new None 60) in
  m_incoming_queue t = [RegisterRequest_cb 7%nat "x" 40] /\
  m_incoming_queue (exec (step stormy 15 WorkerIteration) t) = [].
Proof.
  split; [vm_compute; reflexivity|].
  exact (proj1 (X4_one_completion_per_request stormy 15
    (run stormy 15 [CallRegister 7%nat "x" 40]
       (SlpThread_new SelectServer_new None 60))
    (RegisterRequest_cb 7%nat "x" 40) [] ltac:(vm_compute; reflexivity))).
Defined.

Lemma deliver_reports_urls reports cookie :
  urls (deliver_reports reports cookie) = urls cookie ++ reported_urls reports.
Proof.
  unfold deliver_reports, reported_urls. revert cookie.
  induction reports as [|r reports IH]; intros cookie.
  - cbn. now rewrite app_nil_r.
  - cbn [fold_left]. rewrite IH, filter_cons.
    unfold ServiceCallback, SLP_OK, SLP_LAST_CALL.
    destruct (decide (rep_errcode r = 0)) as [Heq|Hne].
    + rewrite Heq. cbn. now rewrite <- app_assoc.
    + apply Z.eqb_neq in Hne. rewrite Hne.
      destruct (rep_errcode r =? 1); reflexivity.
Qed.

(** X5.  The urls a discovery hands to the discovery callback are the
    urls of the reports that came with SLP_OK, in the order reported;
    reports with SLP_LAST_CALL or with an error add none and remove
    none, so urls found before an error are still handed over.  The
    flag handed over with them is [false] when SLPFindSrvs returns an
    error, and when the last report is an error. *)
Theorem X5_discovery_hands_over_reported_urls env t :
  let before := cancelling (m_discovery_timeout t) (trace t) in
  let answer := env_SLPFindSrvs env (EvSLPFindSrvs SERVICE_NAME :: before) in
  let cookie :=
    deliver_reports answer.2
      {| error := env_uninitialised env before; urls := [] |} in
  let found :=
    map rep_srvurl (filter (fun r => rep_errcode r = SLP_OK) answer.2) in
  urls cookie = reported_urls answer.2 /\
  m_outgoing_queue (exec (DiscoveryRequest env) t)
  = m_outgoing_queue t
    ++ [DiscoveryActionComplete_cb (both_ok answer.1 (error cookie)) found] /\
  (answer.1 <> SLP_OK ->
   m_outgoing_queue (exec (DiscoveryRequest env) t)
   = m_outgoing_queue t ++ [DiscoveryActionComplete_cb false found]) /\
  (forall reports r,
     answer.2 = reports ++ [r] ->
     rep_errcode r <> SLP_OK -> rep_errcode r <> SLP_LAST_CALL ->
     m_outgoing_queue (exec (DiscoveryRequest env) t)
     = m_outgoing_queue t
       ++ [DiscoveryActionComplete_cb false
             (map rep_srvurl
                (filter (fun r => rep_errcode r = SLP_OK) reports))]).
Proof.
  intros before answer cookie found.
  pose proof (DiscoveryRequest_outgoing env t) as H. cbn zeta in H.
  fold before in H. fold answer in H. fold cookie in H.
  assert (urls cookie = reported_urls answer.2) as Hurls
    by (subst cookie; now rewrite deliver_reports_urls).
  assert (map fst (urls cookie) = found) as Hfound.
  { rewrite Hurls. unfold reported_urls. now rewrite map_map. }
  rewrite Hfound in H.
  split_and!; [exact Hurls|exact H| |].
  - intros Herr. rewrite H. unfold both_ok.
    apply Z.eqb_neq in Herr. now rewrite Herr.
  - intros reports r Hans Hok Hlast. rewrite H. subst found cookie.
    rewrite Hans, deliver_reports_last, filter_app, filter_cons.
    rewrite decide_False by exact Hok. rewrite filter_nil, app_nil_r.
    apply Z.eqb_neq in Hok, Hlast. rewrite Hok, Hlast. cbn.
    unfold both_ok. apply Z.eqb_neq in Hok. unfold SLP_OK in *.
    destruct (rep_errcode r =? 0) eqn:E; [apply Z.eqb_eq in E; lia|].
    now rewrite andb_false_r.
Qed.

Lemma X5_discovery_hands_over_reported_urls_witness :
  let env := reporting [found_report "A" 10; error_report] in
  let t := SlpThread_new SelectServer_new (Some 1%nat) 60 in
  rep_errcode error_report <> SLP_OK /\
  rep_errcode error_report <> SLP_LAST_CALL /\
  m_outgoing_queue (exec (DiscoveryRequest env) t)
  = [DiscoveryActionComplete_cb false ["A"]].
Proof.
  split; [discriminate|]. split; [discriminate|].
  exact (proj2 (proj2 (proj2
    (X5_discovery_hands_over_reported_urls
       (reporting [found_report "A" 10; error_report])
       (SlpThread_new SelectServer_new (Some 1%nat) 60))))
    [found_report "A" 10] error_report eq_refl
    ltac:(discriminate) ltac:(discriminate)).
Defined.

(** ** When a timer fires *)

(** X6.  When the renewal timer of a url fires, in any state a run can
    reach: the url has an entry; SLPReg is called once more for the url
    with the lifetime of the entry, which is not changed; the entry
    gets the handle of a new pending timer, and the handle that fired
    is no longer pending; nothing is pushed on the outgoing queue, so
    the caller hears nothing of a renewal, not even when it fails. *)
Theorem X6_renewal_is_silent env aging ss cb refresh ops id ms url :
  let t := run env aging ops (SlpThread_new ss cb refresh) in
  ss_timeouts (m_ss t) !! id = Some (ms, RegistrationTriggered_cb url) ->
  let t' := exec (step env aging (TimeoutFires id)) t in
  exists st,
    m_url_map t !! url = Some st /\
    timeout st = id /\
    m_url_map t'
    = <[url := {| lifetime := lifetime st; timeout := ss_next_id (m_ss t) |}]>
        (m_url_map t) /\
    registrations (trace t')
    = registrations (trace t) ++ [(service_url url, lifetime st)] /\
    ss_timeouts (m_ss t') !! id = None /\
    ss_timeouts (m_ss t') !! ss_next_id (m_ss t)
    = Some ((to_ushort (lifetime st - aging) - 1) * 1000,
            RegistrationTriggered_cb url) /\
    m_outgoing_queue t' = m_outgoing_queue t /\
    m_incoming_queue t' = m_incoming_queue t.
Proof.
  intros t Hid t'. subst t'.
  destruct (timer_inv_run env aging ss cb refresh ops)
    as (_ & H1 & H2 & _ & _ & _).
  fold t in H1, H2. clearbody t.
  destruct (H2 _ _ _ Hid) as (st & Hst & Htimeout). exists st.
  pose proof (H1 _ _ _ Hid) as Hrange.
  unfold_members. cbn. rewrite Hid. cbn. rewrite Hst. cbn.
  destruct (env_SLPReg _ _) as [err errcodes]. cbn.
  split_and!; auto.
  - apply map_eq. intros url'. rewrite lookup_alter, lookup_insert.
    destruct (decide (url = url')) as [<-|]; [|reflexivity].
    now rewrite Hst.
  - rewrite lookup_insert_ne by lia. apply lookup_delete_eq.
  - apply lookup_insert_eq.
Qed.

Lemma X6_renewal_is_silent_witness :
  let t := run stormy 15 [CallRegister 7%nat "x" 40; WorkerIteration]
             (SlpThread_new SelectServer_new None 60) in
  ss_timeouts (m_ss t) !! 1%nat
  = Some (24000, RegistrationTriggered_cb "x") /\
  exists st, m_url_map t !! "x" = Some st /\ timeout st = 1%nat.
Proof.
  split; [vm_compute; reflexivity|].
  destruct (X6_renewal_is_silent stormy 15 SelectServer_new None 60
              [CallRegister 7%nat "x" 40; WorkerIteration] 1%nat 24000 "x"
              ltac:(vm_compute; reflexivity)) as (st & Hst & Hid & _).
  exists st. split; assumption.
Defined.

(** X7.  When the discovery timer fires, in any state a run can reach:
    the handle that fired is forgotten before the discovery runs, so no
    cancellation is asked for it; SLPFindSrvs is called once; a new
    discovery timer is armed and remembered in [m_discovery_timeout],
    and it is the only discovery timer pending; one completion for the
    discovery callback is pushed. *)
Theorem X7_discovery_rearms_itself env aging ss cb refresh ops id ms :
  let t := run env aging ops (SlpThread_new ss cb refresh) in
  ss_timeouts (m_ss t) !! id = Some (ms, DiscoveryTriggered_cb) ->
  let t' := exec (step env aging (TimeoutFires id)) t in
  m_discovery_timeout t = id /\
  m_discovery_timeout t' = ss_next_id (m_ss t) /\
  (exists ms',
     ss_timeouts (m_ss t') !! ss_next_id (m_ss t)
     = Some (ms', DiscoveryTriggered_cb)) /\
  (forall id' ms',
     ss_timeouts (m_ss t') !! id' = Some (ms', DiscoveryTriggered_cb) ->
     id' = ss_next_id (m_ss t)) /\
  ss_timeouts (m_ss t') !! id = None /\
  finds (trace t') = S (finds (trace t)) /\
  (forall id', EvRemoveTimeout id' ∈ trace t' -> EvRemoveTimeout id' ∈ trace t) /\
  (exists ok found,
     m_outgoing_queue t'
     = m_outgoing_queue t ++ [DiscoveryActionComplete_cb ok found]) /\
  m_url_map t' = m_url_map t.
Proof.
  intros t Hid t'.
  assert (t' = run env aging (ops ++ [TimeoutFires id]) (SlpThread_new ss cb refresh))
    as Hrun by (now rewrite run_snoc).
  destruct (timer_inv_run env aging ss cb refresh (ops ++ [TimeoutFires id]))
    as (_ & _ & _ & H3' & _ & _).
  rewrite <- Hrun in H3'. clear Hrun.
  destruct (timer_inv_run env aging ss cb refresh ops)
    as (_ & H1 & _ & H3 & _ & _).
  fold t in H1, H3.
  pose proof (H3 _ _ Hid) as Hdisc. pose proof (H1 _ _ _ Hid) as Hrange.
  assert (m_discovery_timeout t' = ss_next_id (m_ss t) /\
          (exists ms',
             ss_timeouts (m_ss t') !! ss_next_id (m_ss t)
             = Some (ms', DiscoveryTriggered_cb)) /\
          ss_timeouts (m_ss t') !! id = None /\
          finds (trace t') = S (finds (trace t)) /\
          (forall id', EvRemoveTimeout id' ∈ trace t' ->
                       EvRemoveTimeout id' ∈ trace t) /\
          (exists ok found,
             m_outgoing_queue t'
             = m_outgoing_queue t ++ [DiscoveryActionComplete_cb ok found]) /\
          m_url_map t' = m_url_map t) as (Hnew & Harmed & Hgone & Hfinds & Hrm & Hout & Hmap).
  { subst t'. clear H3'. clearbody t. unfold_members. cbn. rewrite Hid. cbn.
    destruct (env_SLPFindSrvs _ _) as [err reports]. cbn.
    crunch;
      (split_and!; [reflexivity|eexists; apply lookup_insert_eq|
                    |reflexivity| |eauto|reflexivity]);
      try (rewrite lookup_insert_ne by lia; apply lookup_delete_eq);
      intros id' Hin;
      repeat (apply elem_of_cons in Hin as [Hin|Hin]; [discriminate|]);
      exact Hin. }
  split_and!; auto.
  intros id' ms' Hid'. pose proof (H3' _ _ Hid') as Heq. congruence.
Qed.

Lemma X7_discovery_rearms_itself_witness :
  let t := run calm 15 [CallDiscover; WorkerIteration]
             (SlpThread_new SelectServer_new (Some 1%nat) 60) in
  ss_timeouts (m_ss t) !! 1%nat = Some (10000, DiscoveryTriggered_cb) /\
  m_discovery_timeout (exec (step calm 15 (TimeoutFires 1%nat)) t)
  = ss_next_id (m_ss t).
Proof.
  split; [vm_compute; reflexivity|].
  exact (proj1 (proj2 (X7_discovery_rearms_itself calm 15 SelectServer_new
    (Some 1%nat) 60 [CallDiscover; WorkerIteration] 1%nat 10000
    ltac:(vm_compute; reflexivity)))).
Defined.

(** ** The next discovery *)

(** X9.  As long as the refresh time fits an [unsigned short]: after a
    [DiscoveryRequest] whose SLP call succeeded on both channels, the
    new discovery timer is due after the smallest lifetime among the
    urls found and the refresh time, so not later than the refresh
    time and not later than any url found expires; after one that
    failed it is due after the refresh time, whatever was found. *)
Theorem X9_next_discovery_delay env t :
  0 <= m_refresh_time t <= 65535 ->
  let before := cancelling (m_discovery_timeout t) (trace t) in
  let answer := env_SLPFindSrvs env (EvSLPFindSrvs SERVICE_NAME :: before) in
  let cookie :=
    deliver_reports answer.2
      {| error := env_uninitialised env before; urls := [] |} in
  let t' := exec (DiscoveryRequest env) t in
  exists next,
    ss_timeouts (m_ss t') !! m_discovery_timeout t'
    = Some (next * 1000, DiscoveryTriggered_cb) /\
    next <= m_refresh_time t /\
    (both_ok answer.1 (error cookie) = false -> next = m_refresh_time t) /\
    (both_ok answer.1 (error cookie) = true ->
     (forall url l, (url, l) ∈ reported_urls answer.2 -> next <= l) /\
     (next = m_refresh_time t \/
      exists url, (url, next) ∈ reported_urls answer.2)).
Proof.
  intros Hrange before answer cookie t'.
  pose proof (DiscoveryRequest_timer_in_range env t Hrange) as H.
  cbn zeta in H. fold before in H. fold answer in H. fold cookie in H.
  fold t' in H.
  assert (urls cookie = reported_urls answer.2) as Hurls
    by (subst cookie; now rewrite deliver_reports_urls).
  rewrite Hurls in H. clear Hurls.
  eexists. split; [exact H|].
  destruct (both_ok answer.1 (error cookie)); (split; [|split]);
    try discriminate; try reflexivity; try lia.
  - apply minimum_lease_le_cap.
  - intros _. split.
    + intros url l Hin. apply minimum_lease_le.
      apply list_elem_of_fmap. exists (url, l). auto.
    + generalize (reported_urls answer.2). intros leases.
      unfold minimum_lease.
      induction leases as [|[url l] leases IH]; cbn; [now left|].
      destruct (Z.min_spec l (foldr Z.min (m_refresh_time t) (map snd leases)))
        as [[_ ->]|[_ ->]].
      * right. exists url. apply elem_of_cons. now left.
      * destruct IH as [IH|[url' IH]]; [now left|].
        right. exists url'. apply elem_of_cons. now right.
Qed.

Lemma X9_next_discovery_delay_witness :
  let t := SlpThread_new SelectServer_new (Some 1%nat) 60 in
  0 <= m_refresh_time t <= 65535 /\
  exists next,
    ss_timeouts (m_ss (exec (DiscoveryRequest calm) t))
      !! m_discovery_timeout (exec (DiscoveryRequest calm) t)
    = Some (next * 1000, DiscoveryTriggered_cb) /\
    next <= 60.
Proof.
  assert (0 <= m_refresh_time (SlpThread_new SelectServer_new (Some 1%nat) 60)
          <= 65535) as Hrange by (cbn; lia).
  split; [exact Hrange|].
  destruct (X9_next_discovery_delay calm _ Hrange) as (next & H1 & H2 & _).
  exists next. split; [exact H1|exact H2].
Defined.

(** ** Cleanup *)

Lemma set_m_init_ok_same t : set_m_init_ok (m_init_ok t) t = t.
Proof. now destruct t. Qed.

Lemma Cleanup_nothing_held t :
  sock_open (m_incoming_socket t) = false ->
  sock_open (m_outgoing_socket t) = false ->
  m_init_ok t = false ->
  Cleanup t = (tt, t).
Proof.
  intros Hi Ho Hok. unfold Cleanup, bind, gets, when, ret, modify.
  rewrite Hi, Ho, Hok. rewrite <- Hok at 1. now rewrite set_m_init_ok_same.
Qed.

(** X8.  In any state a run can reach, [Cleanup] closes both sockets,
    takes the incoming one out of the worker's select server, closes
    the SLP handle if [Init] had opened it (and only then calls
    SLPClose) and unsets [m_init_ok]; a second [Cleanup] changes
    nothing.  It leaves the entries, the pending timers and both
    queues as they are: no url is deregistered and no timer cancelled
    by it. *)
Theorem X8_cleanup_releases env aging ss cb refresh ops :
  let t := run env aging ops (SlpThread_new ss cb refresh) in
  let t' := exec Cleanup t in
  m_init_ok t' = false /\
  sock_open (m_incoming_socket t') = false /\
  sock_open (m_outgoing_socket t') = false /\
  m_slp_handle t' = false /\
  ss_sockets (m_ss t') = [] /\
  slp_calls (trace t')
  = (if m_init_ok t then S (slp_calls (trace t)) else slp_calls (trace t)) /\
  Cleanup t' = (tt, t') /\
  m_url_map t' = m_url_map t /\
  ss_timeouts (m_ss t') = ss_timeouts (m_ss t) /\
  m_incoming_queue t' = m_incoming_queue t /\
  m_outgoing_queue t' = m_outgoing_queue t /\
  registrations (trace t') = registrations (trace t).
Proof.
  intros t t'.
  destruct (resource_inv_run env aging ss cb refresh ops) as (Hi & Ho & Hh & Hs).
  fold t in Hi, Ho, Hh, Hs. clearbody t.
  assert (m_init_ok t' = false /\
          sock_open (m_incoming_socket t') = false /\
          sock_open (m_outgoing_socket t') = false) as (Hok' & Hi' & Ho').
  { subst t'. unfold_members. crunch; auto. }
  split_and!; try assumption.
  - subst t'. unfold_members. crunch; congruence.
  - subst t'. unfold_members. crunch; simplify_eq/=; try reflexivity;
      rewrite ?Hs; try reflexivity; congruence.
  - subst t'. unfold_members. crunch; simplify_eq/=; try reflexivity;
      congruence.
  - now apply Cleanup_nothing_held.
  - subst t'. unfold_members. crunch; reflexivity.
  - subst t'. unfold_members. crunch; reflexivity.
  - subst t'. unfold_members. crunch; reflexivity.
  - subst t'. unfold_members. crunch; reflexivity.
  - subst t'. unfold_members. crunch; reflexivity.
Qed.

(** ** Registering and deregistering *)

(** X10.  In any state a run can reach in which a url has no entry:
    running a [RegisterRequest] for the url and then a
    [DeregisterRequest] for it leaves the entries and the pending
    timers exactly as they were, whatever the SLP library answered;
    the timer armed by the registration is the one cancelled by the
    deregistration; and each of the two callers gets one completion,
    in that order. *)
Theorem X10_register_then_deregister env aging ss cb refresh ops
    callback1 callback2 url lifetime0 :
  let t := run env aging ops (SlpThread_new ss cb refresh) in
  m_url_map t !! url = None ->
  let t1 := exec (RegisterRequest env aging callback1 url lifetime0) t in
  let t2 := exec (DeregisterRequest env callback2 url) t1 in
  m_url_map t2 = m_url_map t /\
  ss_timeouts (m_ss t2) = ss_timeouts (m_ss t) /\
  (exists st, m_url_map t1 !! url = Some st /\
     timeout st = ss_next_id (m_ss t) /\
     EvRemoveTimeout (timeout st) ∈ trace t2) /\
  exists ok1 ok2,
    m_outgoing_queue t2
    = m_outgoing_queue t
      ++ [SimpleActionComplete_cb callback1 ok1;
          SimpleActionComplete_cb callback2 ok2].
Proof.
  intros t Hnone t1 t2. subst t1 t2.
  destruct (timer_inv_run env aging ss cb refresh ops) as (H0 & H1 & _).
  fold t in H0, H1. clearbody t.
  assert (ss_timeouts (m_ss t) !! ss_next_id (m_ss t) = None) as Hfresh.
  { destruct (ss_timeouts (m_ss t) !! ss_next_id (m_ss t)) as [[ms c]|] eqn:E;
      [|reflexivity].
    apply H1 in E. lia. }
  unfold_members. cbn. rewrite Hnone. cbn.
  crunch;
    repeat match goal with
    | H : alter _ _ _ !! _ = _ |- _ =>
        rewrite lookup_alter_eq, lookup_insert_eq in H; cbn in H
    end; simplify_eq/=; boolprops; unfold INVALID_TIMEOUT in *; try lia;
    (split_and!;
     [ rewrite delete_alter_eq, delete_insert_eq; now apply delete_id
     | rewrite delete_insert_eq; now apply delete_id
     | eexists; split_and!;
       [first [reflexivity
              |rewrite lookup_alter_eq, lookup_insert_eq; reflexivity]
       |reflexivity|]
     | rewrite <- app_assoc; eauto ]).
  all: cbn; repeat first [ apply elem_of_cons; left; reflexivity
                         | apply elem_of_cons; right ].
Qed.

Lemma X10_register_then_deregister_witness :
  let t := SlpThread_new SelectServer_new None 60 in
  m_url_map t !! "x" = None /\
  m_url_map (exec (DeregisterRequest stormy 2%nat "x")
               (exec (RegisterRequest stormy 15 1%nat "x" 40) t))
  = m_url_map t.
Proof.
  split; [reflexivity|].
  exact (proj1 (X10_register_then_deregister stormy 15 SelectServer_new None 60
                  [] 1%nat 2%nat "x" 40 eq_refl)).
Defined.

(** ** The public requests *)

(** X11.  [Discover], [Register] and [DeRegister] return without a call
    into the SLP library and without touching the entries, the timers,
    the handle of the discovery timer or the outgoing queue, and they
    run no callback of the caller: all they do is push at most one
    request on the incoming queue and write to the incoming socket.
    [Register] and [DeRegister] push exactly one, and so does
    [Discover] on an object with a discovery callback; after the push
    one byte is written to the incoming socket, if it is open, which
    wakes the worker.  [Discover] on an object without a discovery
    callback does nothing. *)
Theorem X11_public_requests_only_queue env aging t o :
  match o with
  | CallDiscover | CallRegister _ _ _ | CallDeRegister _ _ => True
  | _ => False
  end ->
  let t' := exec (step env aging o) t in
  slp_calls (trace t') = slp_calls (trace t) /\
  invoked (trace t') = invoked (trace t) /\
  m_url_map t' = m_url_map t /\
  m_ss t' = m_ss t /\
  m_discovery_timeout t' = m_discovery_timeout t /\
  m_outgoing_queue t' = m_outgoing_queue t /\
  (m_incoming_queue t' = m_incoming_queue t \/
   exists r, m_incoming_queue t' = m_incoming_queue t ++ [r]) /\
  (o <> CallDiscover ->
   exists r, m_incoming_queue t' = m_incoming_queue t ++ [r]) /\
  (o <> CallDiscover \/ is_Some (m_discovery_callback t) ->
   exists r,
     m_incoming_queue t' = m_incoming_queue t ++ [r] /\
     trace t' = sent incoming_socket t ++ EvIncomingPush r :: trace t /\
     sock_open (m_incoming_socket t') = sock_open (m_incoming_socket t) /\
     sock_pending (m_incoming_socket t')
     = (if sock_open (m_incoming_socket t)
        then sock_pending (m_incoming_socket t) + 1
        else sock_pending (m_incoming_socket t))%nat) /\
  (o = CallDiscover -> m_discovery_callback t = None -> t' = t).
Proof.
  destruct o; intros []; unfold_members; unfold sent; crunch; split_and!;
    eauto; try congruence.
  all: try (intros [Hne|[cb0 Hcb0]]; [congruence|]).
  all: try (intros _).
  all: try discriminate.
  all: try (eexists; split_and!; reflexivity).
Qed.

Lemma X11_public_requests_only_queue_witness :
  let t := run calm 15 [CallInit] (SlpThread_new SelectServer_new None 60) in
  let t' := exec (step calm 15 (CallDeRegister 1%nat "x")) t in
  exists r,
    m_incoming_queue t' = m_incoming_queue t ++ [r] /\
    trace t' = EvSocketSend incoming_socket :: EvIncomingPush r :: trace t.
Proof.
  destruct (proj1 (proj2 (proj2 (proj2 (proj2 (proj2 (proj2 (proj2 (proj2
    (X11_public_requests_only_queue calm 15
       (run calm 15 [CallInit] (SlpThread_new SelectServer_new None 60))
       (CallDeRegister 1%nat "x") I)))))))))
    ltac:(left; discriminate)) as (r & Hq & Htr & _).
  exists r. split; [exact Hq|exact Htr].
Defined.

(** X12.  In any state a run can reach in which a url has an entry with
    another lifetime than the clamped one of a [RegisterRequest]: the
    request changes the lifetime of that entry and leaves all other
    entries alone; it cancels the renewal timer the entry held, and
    does so before it calls SLPReg; and it arms one new renewal timer,
    whose handle the entry gets, leaving all other timers alone. *)
Theorem X12_reregistration_replaces env aging ss cb refresh ops
    callback url lifetime0 st :
  let t := run env aging ops (SlpThread_new ss cb refresh) in
  let granted := clamped_lease lifetime0 MIN_LIFETIME
                   (refresh_interval_after env (trace t)) in
  m_url_map t !! url = Some st ->
  lifetime st <> granted ->
  let t' := exec (RegisterRequest env aging callback url lifetime0) t in
  m_url_map t'
  = <[url := {| lifetime := granted; timeout := ss_next_id (m_ss t) |}]>
      (m_url_map t) /\
  ss_timeouts (m_ss t')
  = <[ss_next_id (m_ss t) :=
        ((to_ushort (granted - aging) - 1) * 1000,
         RegistrationTriggered_cb url)]>
      (delete (timeout st) (ss_timeouts (m_ss t))) /\
  ss_timeouts (m_ss t') !! timeout st = None /\
  exists ok,
    trace t'
    = sent outgoing_socket t
      ++ EvOutgoingPush (SimpleActionComplete_cb callback ok)
      :: EvRegisterSingleTimeout (ss_next_id (m_ss t))
           ((to_ushort (granted - aging) - 1) * 1000)
           (RegistrationTriggered_cb url)
      :: EvSLPReg (service_url url) granted
      :: EvRemoveTimeout (timeout st)
      :: EvSLPGetRefreshInterval :: trace t.
Proof.
  intros t granted Hst Hdiff t'. subst t' granted.
  rewrite <- clamped_lease_code in *. unfold refresh_interval_after in *.
  destruct (timer_inv_run env aging ss cb refresh ops)
    as (_ & H1 & _ & _ & H4 & _).
  fold t in H1, H4. clearbody t.
  destruct (H4 _ _ Hst) as [ms Hms]. pose proof (H1 _ _ _ Hms) as Hrange.
  assert ((timeout st =? INVALID_TIMEOUT)%nat = false) as Hvalid.
  { apply Nat.eqb_neq. unfold INVALID_TIMEOUT. lia. }
  apply Z.eqb_neq in Hdiff.
  unfold sent, service_url. unfold_members. cbn.
  set (m := to_ushort _) in *.
  match goal with
  | |- context [if ?c then m else ?e] => set (L := if c then m else e) in *
  end.
  clearbody L. rewrite Hst. cbn. rewrite Hdiff. cbn. rewrite Hvalid. cbn.
  destruct (env_SLPReg _ _) as [err errcodes]. cbn.
  destruct (sock_open (m_outgoing_socket t)); cbn;
    (split_and!;
     [ apply map_eq; intros url';
       destruct (decide (url = url')) as [<-|];
       [ rewrite lookup_alter_eq, !lookup_insert_eq; reflexivity
       | rewrite lookup_alter_ne, !lookup_insert_ne by done; reflexivity ]
     | reflexivity
     | rewrite lookup_insert_ne by lia; apply lookup_delete_eq
     | eauto ]).
Qed.

Lemma X12_reregistration_replaces_witness :
  let t := run calm 15 [CallRegister 1%nat "x" 40; WorkerIteration]
             (SlpThread_new SelectServer_new None 60) in
  m_url_map t !! "x" = Some {| lifetime := 40; timeout := 1%nat |} /\
  40 <> clamped_lease 50 MIN_LIFETIME (refresh_interval_after calm (trace t)) /\
  m_url_map (exec (RegisterRequest calm 15 2%nat "x" 50) t)
  = <[ "x" := {| lifetime := 50; timeout := 2%nat |} ]> (m_url_map t).
Proof.
  split; [vm_compute; reflexivity|]. split; [vm_compute; discriminate|].
  exact (proj1 (X12_reregistration_replaces calm 15 SelectServer_new None 60
    [CallRegister 1%nat "x" 40; WorkerIteration] 2%nat "x" 50
    {| lifetime := 40; timeout := 1%nat |}
    ltac:(vm_compute; reflexivity) ltac:(vm_compute; discriminate))).
Defined.

(** * More: the variables of a trigger *)

Lemma string_append_cons a (s1 s2 : string) :
  String.append (String a s1) s2 = String a (String.append s1 s2).
Proof. reflexivity. Qed.

Lemma string_append_nil_r (s : string) : String.append s EmptyString = s.
Proof.
  induction s as [|a s IH]; [reflexivity|].
  now rewrite string_append_cons, IH.
Qed.

Lemma string_append_assoc (s1 s2 s3 : string) :
  String.append (String.append s1 s2) s3
  = String.append s1 (String.append s2 s3).
Proof.
  induction s1 as [|a s1 IH]; [reflexivity|].
  now rewrite !string_append_cons, IH.
Qed.

Lemma AsString_stream_append variables keys str :
  AsString_stream variables false keys str
  = String.append str (AsString_stream variables false keys EmptyString).
Proof.
  revert str. induction keys as [|key rest IH]; intros str; cbn [AsString_stream].
  - now rewrite string_append_nil_r.
  - rewrite IH. rewrite (IH (String.append _ _)).
    rewrite !string_append_assoc. reflexivity.
Qed.

Lemma AsString_stream_rest variables keys :
  AsString_stream variables false keys EmptyString
  = match keys with
    | [] => EmptyString
    | _ => String.append ", " (joined (map (binding_text variables) keys))
    end.
Proof.
  induction keys as [|key rest IH]; [reflexivity|].
  cbn [AsString_stream]. rewrite AsString_stream_append, IH.
  fold (binding_text variables key).
  destruct rest as [|key' rest].
  - now rewrite string_append_nil_r.
  - cbn [map joined]. now rewrite !string_append_assoc.
Qed.

Lemma AsString_stream_joined variables keys :
  AsString_stream variables true keys EmptyString
  = joined (map (binding_text variables) keys).
Proof.
  destruct keys as [|key rest]; [reflexivity|].
  cbn [AsString_stream]. rewrite AsString_stream_append, AsString_stream_rest.
  fold (binding_text variables key).
  destruct rest as [|key' rest].
  - now rewrite string_append_nil_r.
  - reflexivity.
Qed.

(** X13.  [AsString] gives the variables as "name=value" joined by
    ", ": every variable of the context once, in ascending order of the
    names as [std::string] compares them; the text is the same whatever
    order the iteration over the map yields the names in, and it is
    empty for a context without variables. *)
Theorem X13_Context_AsString_sorted c iteration :
  iteration ≡ₚ map fst (map_to_list (m_variables c)) ->
  exists keys,
    AsString_in iteration c
    = joined (map (binding_text (m_variables c)) keys) /\
    Sorted String.le keys /\
    NoDup keys /\
    (forall key, key ∈ keys <-> is_Some (m_variables c !! key)) /\
    (forall key value, m_variables c !! key = Some value ->
       binding_text (m_variables c) key
       = String.append key (String.append "=" value)) /\
    (m_variables c = ∅ -> AsString_in iteration c = EmptyString) /\
    AsString_in iteration c = AsString c.
Proof.
  intros Hperm. exists (merge_sort String.le iteration).
  assert (merge_sort String.le iteration
          = merge_sort String.le (map fst (map_to_list (m_variables c))))
    as Hsame.
  { apply (Sorted_unique String.le); try apply Sorted_merge_sort; try apply _.
    now rewrite !merge_sort_Permutation. }
  split_and!.
  - unfold AsString_in. apply AsString_stream_joined.
  - apply Sorted_merge_sort. apply _.
  - rewrite merge_sort_Permutation, Hperm. apply NoDup_fst_map_to_list.
  - intros key. rewrite merge_sort_Permutation, Hperm.
    rewrite list_elem_of_fmap. split.
    + intros [[k v] [-> Hin]]. apply elem_of_map_to_list in Hin. eauto.
    + intros [v Hv]. exists (key, v). split; [reflexivity|].
      now apply elem_of_map_to_list.
  - intros key value Hkey. unfold binding_text. now rewrite Hkey.
  - intros Hempty. unfold AsString_in. rewrite Hsame, Hempty.
    rewrite map_to_list_empty. reflexivity.
  - unfold AsString, AsString_in. now rewrite Hsame.
Qed.

Lemma X13_Context_AsString_sorted_witness :
  let c := Update "b" "2" (Update "a" "1" {| m_variables := ∅ |}) in
  ["b"; "a"] ≡ₚ map fst (map_to_list (m_variables c)) /\
  AsString_in ["b"; "a"] c = "a=1, b=2".
Proof.
  assert (["b"; "a"] ≡ₚ map fst (map_to_list
            (m_variables
               (Update "b" "2" (Update "a" "1" {| m_variables := ∅ |})))))
    as Hperm.
  { vm_compute. first [reflexivity | apply Permutation_swap]. }
  split; [exact Hperm|].
  destruct (X13_Context_AsString_sorted _ _ Hperm)
    as (keys & _ & _ & _ & _ & _ & _ & H).
  rewrite H. vm_compute. reflexivity.
Defined.

(** X14.  [Lookup] after [Update] of the same name finds the value and
    stores it; [Update] does not change what [Lookup] says of any other
    name; [Lookup] of a name that is not there returns [false] and
    leaves the caller's string alone; of two updates of one name the
    later wins; and updating a name to the value it has changes
    nothing. *)
Theorem X14_Context_Update_Lookup c name value old :
  Lookup name old (Update name value c) = (true, value) /\
  (forall other, other <> name ->
     Lookup other old (Update name value c) = Lookup other old c) /\
  (m_variables c !! name = None -> Lookup name old c = (false, old)) /\
  (forall value',
     Update name value' (Update name value c) = Update name value' c) /\
  (Lookup name old c = (true, value) ->
   m_variables (Update name value c) = m_variables c).
Proof.
  unfold Lookup, Update. cbn. split_and!.
  - now rewrite lookup_insert_eq.
  - intros other Hne. now rewrite lookup_insert_ne.
  - now intros ->.
  - intros value'. now rewrite insert_insert_eq.
  - destruct (m_variables c !! name) eqn:H; intros [= <-]. now apply insert_id.
Qed.
